(** * pancat: co-traversal edition and bubble calling

    A shallow embedding of [pancat/edit_distance.py] and
    [pancat/find_bubbles.py], and the properties of the two algorithms:
    the two-cursor co-traversal that compares two segmentations of a path,
    and the fixed-point partitioning of paths into bubbles. *)

From Stdlib Require Import ZArith Lia DecimalString.
From stdpp Require Import gmap strings list sorting.

Local Open Scope Z_scope.

(** ** Exceptions and results

    A Python call either returns a value or raises.  Loops are run with a
    bound on their number of iterations; [OutOfFuel] is the outcome of a loop
    that needs more iterations than the bound allows. *)

Inductive exn : Type :=
| KeyError
| IndexError
| TypeError
| ValueError.

Inductive outcome (A : Type) : Type :=
| Ok (a : A)
| Raise (e : exn)
| OutOfFuel.

Arguments Ok {A} a.
Arguments Raise {A} e.
Arguments OutOfFuel {A}.

#[global] Instance exn_eq_dec : EqDecision exn.
Proof. solve_decision. Defined.

#[global] Instance outcome_ret : MRet outcome := @Ok.

#[global] Instance outcome_bind : MBind outcome := fun A B f m =>
  match m with
  | Ok a => f a
  | Raise e => Raise e
  | OutOfFuel => OutOfFuel
  end.

#[global] Instance outcome_fmap : FMap outcome := fun A B f m =>
  match m with
  | Ok a => Ok (f a)
  | Raise e => Raise e
  | OutOfFuel => OutOfFuel
  end.

(** [o] if it holds a value, the exception [e] otherwise. *)
Definition or_raise {A : Type} (e : exn) (o : option A) : outcome A :=
  match o with
  | Some a => Ok a
  | None => Raise e
  end.

(** ** Python built-ins used by the two modules *)

(** A [dict] whose iteration order matters: its items, in insertion order.
    [dict_get d k] is [d[k]]; [dict_set d k v] is [d] after [d[k] = v]. *)
Fixpoint dict_get {V : Type} (d : list (string * V)) (k : string) : option V :=
  match d with
  | [] => None
  | (k', v) :: d' => if decide (k' = k) then Some v else dict_get d' k
  end.

Fixpoint dict_set {V : Type} (d : list (string * V)) (k : string) (v : V)
  : list (string * V) :=
  match d with
  | [] => [(k, v)]
  | (k', v') :: d' =>
      if decide (k' = k) then (k, v) :: d' else (k', v') :: dict_set d' k v
  end.

(** [d.keys()] *)
Definition keys {V : Type} (d : list (string * V)) : list string := d.*1.

(** [l[a:b]] for indices [0 <= a], [0 <= b]. *)
Definition slice {A : Type} (l : list A) (a b : nat) : list A :=
  drop a (take b l).

(** [l[1:-1]] *)
Definition inner {A : Type} (l : list A) : list A := removelast (tail l).

(** [l.index(x)]: the position of the first occurrence of [x]. *)
Fixpoint index {A : Type} `{EqDecision A} (l : list A) (x : A) : option nat :=
  match l with
  | [] => None
  | y :: l' => if decide (y = x) then Some 0%nat else S <$> index l' x
  end.

(** [sorted(l, key=...)]: a stable insertion sort; [le x y] says that the
    key of [x] is at most the key of [y]. *)
Fixpoint insert_sorted {A : Type} (le : A → A → bool) (x : A) (l : list A)
  : list A :=
  match l with
  | [] => [x]
  | y :: l' => if le x y then x :: y :: l' else y :: insert_sorted le x l'
  end.

Definition sorted_by {A : Type} (le : A → A → bool) (l : list A) : list A :=
  foldr (insert_sorted le) [] l.

(** [sorted(list(s))] for a set of integers. *)
Definition sorted_ints (s : gset Z) : list Z := sorted_by Z.leb (elements s).

(** ** The graph model (class [Graph] of the [pgGraphs] library)

    [segments] maps a node name to its data, of which the keys ['length'],
    ['seq'] and ['PO'] are read here (['PO'] is absent until the offsets are
    computed); [paths] maps a path name to the list of the oriented nodes it
    visits (key ['path']). *)

Inductive Orientation : Type :=
| Forward
| Reverse.

#[global] Instance Orientation_eq_dec : EqDecision Orientation.
Proof. solve_decision. Defined.

Record Segment : Type := mkSegment {
  seg_length : Z;
  seg_seq : string;
  seg_PO : option (list (string * list (Z * Z * Orientation)))
}.

Record Graph : Type := mkGraph {
  segments : gmap string Segment;
  paths : list (string * list (string * Orientation))
}.

(** Modelled from the spec: [futures_collector] belongs to the
    [tharospytools] library and is not part of the repository.  By the
    contract of the parallel dispatcher it applies [func] to every element of
    [argslist] and returns the results in the order of [argslist]; a unit of
    work that fails makes the collection fail. *)
Definition futures_collector {A B : Type} (func : A → outcome B)
    (argslist : list A) : outcome (list B) :=
  mapM func argslist.

(** * Edition between two graphs: [pancat/edit_distance.py] *)

Module EditDistance.

(** The local variables of the co-traversal loop. *)
Record State : Type := mkState {
  i : nat;
  j : nat;
  merges : gset Z;
  splits : gset Z;
  pos_A : Z;
  pos_B : Z;
  global_pos : Z
}.

Definition initial : State :=
  {| i := 0; j := 0; merges := ∅; splits := ∅;
     pos_A := 0; pos_B := 0; global_pos := 0 |}.

(** The condition of the [while]: [and] evaluates its right operand only when
    the left one holds. *)
Definition loop_cond (graph_A graph_B : Graph) (path_name : string)
    (st : State) : outcome bool :=
  path_A ← or_raise KeyError (dict_get (paths graph_A) path_name);
  if decide (i st < length path_A)%nat then
    path_B ← or_raise KeyError (dict_get (paths graph_B) path_name);
    Ok (bool_decide (j st < length path_B)%nat)
  else Ok false.

(** One iteration of the [while]. *)
Definition loop_body (graph_A graph_B : Graph) (path_name : string)
    (st : State) : outcome State :=
  path_A ← or_raise KeyError (dict_get (paths graph_A) path_name);
  step_A ← or_raise IndexError (path_A !! i st);
  let current_node_A := step_A.1 in
  path_B ← or_raise KeyError (dict_get (paths graph_B) path_name);
  step_B ← or_raise IndexError (path_B !! j st);
  let current_node_B := step_B.1 in
  seg_A ← or_raise KeyError (segments graph_A !! current_node_A);
  seg_B ← or_raise KeyError (segments graph_B !! current_node_B);
  let global_pos' :=
    Z.min
      (global_pos st + (seg_length seg_A - (global_pos st - pos_A st)))
      (global_pos st + (seg_length seg_B - (global_pos st - pos_B st))) in
  match bool_decide (global_pos' - pos_A st = seg_length seg_A),
        bool_decide (global_pos' - pos_B st = seg_length seg_B) with
  | true, true =>
      Ok {| i := S (i st); j := S (j st);
            merges := merges st; splits := splits st;
            pos_A := pos_A st + seg_length seg_A;
            pos_B := pos_B st + seg_length seg_B;
            global_pos := global_pos' |}
  | true, false =>
      Ok {| i := S (i st); j := j st;
            merges := merges st; splits := {[global_pos']} ∪ splits st;
            pos_A := pos_A st + seg_length seg_A;
            pos_B := pos_B st;
            global_pos := global_pos' |}
  | false, true =>
      Ok {| i := i st; j := S (j st);
            merges := {[global_pos']} ∪ merges st; splits := splits st;
            pos_A := pos_A st;
            pos_B := pos_B st + seg_length seg_B;
            global_pos := global_pos' |}
  | false, false => Raise ValueError
  end.

(** The [while] loop, run for at most [fuel] iterations. *)
Fixpoint while_loop (fuel : nat) (graph_A graph_B : Graph)
    (path_name : string) (st : State) : outcome State :=
  c ← loop_cond graph_A graph_B path_name st;
  if (c : bool) then
    match fuel with
    | O => OutOfFuel
    | S fuel' =>
        st' ← loop_body graph_A graph_B path_name st;
        while_loop fuel' graph_A graph_B path_name st'
    end
  else Ok st.

(** Every iteration moves a cursor forward, so the loop runs at most once
    per node of the two paths. *)
Definition path_len (g : Graph) (path_name : string) : nat :=
  from_option length 0%nat (dict_get (paths g) path_name).

Definition iterations (graph_A graph_B : Graph) (path_name : string) : nat :=
  (path_len graph_A path_name + path_len graph_B path_name)%nat.

(** The result for one path: [{'merges': [...], 'splits': [...]}]. *)
Definition edition_of (st : State) : gmap string (list Z) :=
  <["splits" := sorted_ints (splits st)]>
    (<["merges" := sorted_ints (merges st)]> ∅).

(** [edit_single_path_path_level(path_name, graph_A, graph_B)] *)
Definition edit_single_path_path_level (path_name : string)
    (graph_A graph_B : Graph) : outcome (gmap string (list Z)) :=
  st ← while_loop (iterations graph_A graph_B path_name)
         graph_A graph_B path_name initial;
  Ok (edition_of st).

(** The [for] loop of [path_level_edition] over the selected paths; its body
    is the loop of [edit_single_path_path_level], line for line. *)
Fixpoint for_paths (graph_A graph_B : Graph) (names : list string)
    (edition_results : gmap string (gmap string (list Z)))
  : outcome (gmap string (gmap string (list Z))) :=
  match names with
  | [] => Ok edition_results
  | path_name :: names' =>
      st ← while_loop (iterations graph_A graph_B path_name)
             graph_A graph_B path_name initial;
      for_paths graph_A graph_B names'
        (<[path_name := edition_of st]> edition_results)
  end.

(** [path_level_edition(graph_A, graph_B, selected_paths)] *)
Definition path_level_edition (graph_A graph_B : Graph)
    (selected_paths : gset string)
  : outcome (gmap string (gmap string (list Z))) :=
  for_paths graph_A graph_B (elements selected_paths) ∅.

(** The dictionary comprehension
    [{paths_of_graph[i]: edits for i, edits in enumerate(editions)}];
    [k] is the index of the first element of [editions]. *)
Fixpoint collect (paths_of_graph : list string) (k : nat)
    (editions : list (gmap string (list Z)))
    (acc : gmap string (gmap string (list Z)))
  : outcome (gmap string (gmap string (list Z))) :=
  match editions with
  | [] => Ok acc
  | edits :: editions' =>
      name ← or_raise IndexError (paths_of_graph !! k);
      collect paths_of_graph (S k) editions' (<[name := edits]> acc)
  end.

(** [path_level_edition_multiprocessing(graph_A, graph_B, selected_paths)] *)
Definition path_level_edition_multiprocessing (graph_A graph_B : Graph)
    (selected_paths : gset string)
  : outcome (gmap string (gmap string (list Z))) :=
  let paths_of_graph := elements selected_paths in
  editions ← futures_collector
    (fun args : string * Graph * Graph =>
       edit_single_path_path_level args.1.1 args.1.2 args.2)
    ((fun path_name => (path_name, graph_A, graph_B)) <$> paths_of_graph);
  collect paths_of_graph 0 editions ∅.

(** *** Segmentations

    The segmentation of a path: the lengths of the segments it visits, in
    order.  It exists when the path is in the graph and each of its nodes is
    a segment of the graph. *)
Definition segmentation (g : Graph) (path_name : string) : option (list Z) :=
  path ← dict_get (paths g) path_name;
  mapM (fun step : string * Orientation =>
          seg_length <$> segments g !! step.1) path.

Definition total_length (lens : list Z) : Z := foldr Z.add 0 lens.

(** What an iteration does once the two segment lengths are known. *)
Definition advance (len_A len_B : Z) (st : State) : outcome State :=
  let global_pos' :=
    Z.min (global_pos st + (len_A - (global_pos st - pos_A st)))
          (global_pos st + (len_B - (global_pos st - pos_B st))) in
  match bool_decide (global_pos' - pos_A st = len_A),
        bool_decide (global_pos' - pos_B st = len_B) with
  | true, true =>
      Ok {| i := S (i st); j := S (j st);
            merges := merges st; splits := splits st;
            pos_A := pos_A st + len_A; pos_B := pos_B st + len_B;
            global_pos := global_pos' |}
  | true, false =>
      Ok {| i := S (i st); j := j st;
            merges := merges st; splits := {[global_pos']} ∪ splits st;
            pos_A := pos_A st + len_A; pos_B := pos_B st;
            global_pos := global_pos' |}
  | false, true =>
      Ok {| i := i st; j := S (j st);
            merges := {[global_pos']} ∪ merges st; splits := splits st;
            pos_A := pos_A st; pos_B := pos_B st + len_B;
            global_pos := global_pos' |}
  | false, false => Raise ValueError
  end.

(** The loop over two segmentations. *)
Fixpoint run (fuel : nat) (lens_A lens_B : list Z) (st : State)
  : outcome State :=
  match lens_A !! i st, lens_B !! j st with
  | Some len_A, Some len_B =>
      match fuel with
      | O => OutOfFuel
      | S fuel' =>
          st' ← advance len_A len_B st; run fuel' lens_A lens_B st'
      end
  | _, _ => Ok st
  end.

(** The state seen from the other graph. *)
Definition swap (st : State) : State :=
  {| i := j st; j := i st; merges := splits st; splits := merges st;
     pos_A := pos_B st; pos_B := pos_A st; global_pos := global_pos st |}.

End EditDistance.

(** ** Edition at graph level *)

Module GraphLevel.

(** An edition seen from every path that crosses the node: a
    [frozenset] of pairs (path name, [frozenset] of positions). *)
Definition Event : Type := gset (string * gset Z).

Record State : Type := mkState {
  i : nat;
  j : nat;
  merges : gset Event;
  splits : gset Event;
  pos_A : Z;
  pos_B : Z;
  global_pos : Z
}.

Definition loop_cond (graph_A graph_B : Graph) (path_name : string)
    (st : State) : outcome bool :=
  path_A ← or_raise KeyError (dict_get (paths graph_A) path_name);
  if decide (i st < length path_A)%nat then
    path_B ← or_raise KeyError (dict_get (paths graph_B) path_name);
    Ok (bool_decide (j st < length path_B)%nat)
  else Ok false.

(** The two set comprehensions over [segments[node]['PO'].items()]. *)
Definition split_event (PO : list (string * list (Z * Z * Orientation)))
    (global_pos' pos_A' : Z) : Event :=
  list_to_set
    ((fun item : string * list (Z * Z * Orientation) =>
        (item.1,
         list_to_set
           ((fun t : Z * Z * Orientation => t.1.1 + global_pos' - pos_A')
              <$> item.2))) <$> PO).

Definition merge_event (PO : list (string * list (Z * Z * Orientation)))
  : Event :=
  list_to_set
    ((fun item : string * list (Z * Z * Orientation) =>
        (item.1,
         list_to_set ((fun t : Z * Z * Orientation => t.1.2) <$> item.2)))
       <$> PO).

Definition loop_body (graph_A graph_B : Graph) (path_name : string)
    (st : State) : outcome State :=
  path_A ← or_raise KeyError (dict_get (paths graph_A) path_name);
  step_A ← or_raise IndexError (path_A !! i st);
  let current_node_A := step_A.1 in
  path_B ← or_raise KeyError (dict_get (paths graph_B) path_name);
  step_B ← or_raise IndexError (path_B !! j st);
  let current_node_B := step_B.1 in
  seg_A ← or_raise KeyError (segments graph_A !! current_node_A);
  seg_B ← or_raise KeyError (segments graph_B !! current_node_B);
  let global_pos' :=
    Z.min
      (global_pos st + (seg_length seg_A - (global_pos st - pos_A st)))
      (global_pos st + (seg_length seg_B - (global_pos st - pos_B st))) in
  match bool_decide (global_pos' - pos_A st = seg_length seg_A),
        bool_decide (global_pos' - pos_B st = seg_length seg_B) with
  | true, true =>
      Ok {| i := S (i st); j := S (j st);
            merges := merges st; splits := splits st;
            pos_A := pos_A st + seg_length seg_A;
            pos_B := pos_B st + seg_length seg_B;
            global_pos := global_pos' |}
  | true, false =>
      PO ← or_raise KeyError (seg_PO seg_B);
      Ok {| i := S (i st); j := j st;
            merges := merges st;
            splits := {[split_event PO global_pos' (pos_A st)]} ∪ splits st;
            pos_A := pos_A st + seg_length seg_A;
            pos_B := pos_B st;
            global_pos := global_pos' |}
  | false, true =>
      PO ← or_raise KeyError (seg_PO seg_B);
      Ok {| i := i st; j := S (j st);
            merges := {[merge_event PO]} ∪ merges st; splits := splits st;
            pos_A := pos_A st;
            pos_B := pos_B st + seg_length seg_B;
            global_pos := global_pos' |}
  | false, false => Raise ValueError
  end.

Fixpoint while_loop (fuel : nat) (graph_A graph_B : Graph)
    (path_name : string) (st : State) : outcome State :=
  c ← loop_cond graph_A graph_B path_name st;
  if (c : bool) then
    match fuel with
    | O => OutOfFuel
    | S fuel' =>
        st' ← loop_body graph_A graph_B path_name st;
        while_loop fuel' graph_A graph_B path_name st'
    end
  else Ok st.

(** The cursors and positions at the start of a path; the two sets are
    those given. *)
Definition start (merges0 splits0 : gset Event) : State :=
  {| i := 0; j := 0; merges := merges0; splits := splits0;
     pos_A := 0; pos_B := 0; global_pos := 0 |}.

(** [edit_single_path_graph_level(path_name, graph_A, graph_B)], which
    returns [(merges, splits)]. *)
Definition edit_single_path_graph_level (path_name : string)
    (graph_A graph_B : Graph) : outcome (gset Event * gset Event) :=
  st ← while_loop (EditDistance.iterations graph_A graph_B path_name)
         graph_A graph_B path_name (start ∅ ∅);
  Ok (merges st, splits st).

(** The two list comprehensions that turn the sets into lists. *)
Definition listing (events : gset Event) : list (list (string * list Z)) :=
  (fun ext_fset : Event =>
     (fun item : string * gset Z => (item.1, elements item.2))
       <$> elements ext_fset) <$> elements events.

Definition results_of (merges0 splits0 : gset Event)
  : gmap string (list (list (string * list Z))) :=
  <["splits" := listing splits0]> (<["merges" := listing merges0]> ∅).

(** The paths of both graphs:
    [set(graph_A.paths.keys()).intersection(set(graph_B.paths.keys()))]. *)
Definition path_intersect (graph_A graph_B : Graph) : gset string :=
  list_to_set (keys (paths graph_A)) ∩ list_to_set (keys (paths graph_B)).

Section Offsets.

(** [Graph.sequence_offsets] of the [pgGraphs] library fills the ['PO']
    entry of the segments; it is a parameter here. *)
Variable sequence_offsets : Graph → Graph.

(** The [for] loop of [graph_level_edition]: the two sets are shared by all
    the paths. *)
Fixpoint for_paths (graph_A graph_B : Graph) (names : list string)
    (merges0 splits0 : gset Event) : outcome (gset Event * gset Event) :=
  match names with
  | [] => Ok (merges0, splits0)
  | path_name :: names' =>
      st ← while_loop (EditDistance.iterations graph_A graph_B path_name)
             graph_A graph_B path_name (start merges0 splits0);
      for_paths graph_A graph_B names' (merges st) (splits st)
  end.

(** [graph_level_edition(graph_A, graph_B)] *)
Definition graph_level_edition (graph_A graph_B : Graph)
  : outcome (gmap string (list (list (string * list Z)))) :=
  let graph_A := sequence_offsets graph_A in
  let graph_B := sequence_offsets graph_B in
  r ← for_paths graph_A graph_B
        (elements (path_intersect graph_A graph_B)) ∅ ∅;
  Ok (results_of r.1 r.2).

(** [graph_level_edition_multiprocessing(graph_A, graph_B)] *)
Definition graph_level_edition_multiprocessing (graph_A graph_B : Graph)
  : outcome (gmap string (list (list (string * list Z)))) :=
  let graph_A := sequence_offsets graph_A in
  let graph_B := sequence_offsets graph_B in
  editions ← futures_collector
    (fun args : string * Graph * Graph =>
       edit_single_path_graph_level args.1.1 args.1.2 args.2)
    ((fun path_name => (path_name, graph_A, graph_B))
       <$> elements (path_intersect graph_A graph_B));
  let r := foldl (fun (acc : gset Event * gset Event)
                      (e : gset Event * gset Event) =>
                    (acc.1 ∪ e.1, acc.2 ∪ e.2)) (∅, ∅) editions in
  Ok (results_of r.1 r.2).

End Offsets.

End GraphLevel.

(** ** The entry point *)

(** The argument [selection]: [True] (or [False]), or a list of names. *)
Inductive Selection : Type :=
| SelBool (b : bool)
| SelList (names : list string).

(** [set(selection)]: a [bool] is not iterable. *)
Definition set_of (selection : Selection) : outcome (gset string) :=
  match selection with
  | SelList names => Ok (list_to_set names)
  | SelBool _ => Raise TypeError
  end.

(** What [perform_edition] writes to [output_path]. *)
Inductive Results : Type :=
| PathLevel (r : gmap string (gmap string (list Z)))
| GraphLevel (r : gmap string (list (list (string * list Z)))).

(** [perform_edition], from the two graphs it has loaded. *)
Definition perform_edition (sequence_offsets : Graph → Graph)
    (graph_A graph_B : Graph) (graph_level : bool)
    (selection : Selection) (cores : Z) : outcome Results :=
  if graph_level then
    if decide (cores > 1) then
      GraphLevel <$>
        GraphLevel.graph_level_edition_multiprocessing sequence_offsets
          graph_A graph_B
    else
      GraphLevel <$>
        GraphLevel.graph_level_edition sequence_offsets graph_A graph_B
  else
    let path_intersect : gset string :=
      list_to_set (keys (paths graph_A))
        ∩ list_to_set (keys (paths graph_B)) in
    match selection with
    | SelList names =>
        if forallb (fun x => bool_decide (x ∈ path_intersect)) names then
          if decide (cores > 1) then
            selected ← set_of selection;
            PathLevel <$>
              EditDistance.path_level_edition_multiprocessing
                graph_A graph_B selected
          else
            selected ← set_of selection;
            PathLevel <$>
              EditDistance.path_level_edition graph_A graph_B selected
        else Raise ValueError
    | SelBool _ =>
        if decide (cores > 1) then
          selected ← set_of selection;
          PathLevel <$>
            EditDistance.path_level_edition_multiprocessing
              graph_A graph_B selected
        else
          PathLevel <$>
            EditDistance.path_level_edition graph_A graph_B path_intersect
    end.

(** * Bubbles: [pancat/find_bubbles.py] *)

Module FindBubbles.

(** [range(0, stop, step)] for [0 < step]. *)
Definition range (stop step : nat) : list nat :=
  (fun k => (k * step)%nat) <$> seq 0 (Nat.div (stop + step - 1) step).

(** [grouper(iterable, n, m)]:
    [[iterable[i:i+n] for i in range(0, len(iterable)-1, n-m)]].
    A step of zero is refused by [range]; with a negative step the range
    holds [0] alone when its bound [len(iterable)-1] is negative, and is
    empty otherwise. *)
Definition grouper {A : Type} (iterable : list A) (n m : nat)
  : outcome (list (list A)) :=
  if decide (n = m) then Raise ValueError
  else if decide (n < m)%nat then
    Ok (if decide (length iterable = 0%nat) then [slice iterable 0 n] else [])
  else
    Ok ((fun k => slice iterable k (k + n))
          <$> range (length iterable - 1) (n - m)).

(** [common_members(elements)] *)
Definition common_members (elements : list (gset string))
  : outcome (list string) :=
  match elements with
  | [] => Raise IndexError
  | first_path :: other_paths =>
      Ok (sorted_by String.leb
            (base.elements (foldl (∩) first_path other_paths)))
  end.

(** Chains of node names, and chains of oriented nodes. *)
Definition embed_nodes (bubbles : list (gmap string (list string)))
  : gset string :=
  ⋃ ((fun bubble : gmap string (list string) =>
        ⋃ ((fun item : string * list string =>
              (list_to_set (inner item.2) : gset string))
             <$> map_to_list bubble)) <$> bubbles).

(** The pairs of neighbours of a list: what [grouper(l, 2)] returns. *)
Fixpoint consecutive {A : Type} (l : list A) : list (list A) :=
  match l with
  | [] => []
  | a :: t =>
      match t with
      | [] => []
      | b :: _ => [a; b] :: consecutive t
      end
  end.

(** The chains of one path, bubble after bubble. *)
Definition chains_of {C : Type} (path_name : string)
    (bubbles : list (gmap string (list C))) : list (list C) :=
  (fun bubble : gmap string (list C) => default [] (bubble !! path_name))
    <$> bubbles.

(** The chains put end to end, the first element of every chain but the
    first being dropped. *)
Definition stitch {C : Type} (chains : list (list C)) : list C :=
  match chains with
  | [] => []
  | c :: chains' => c ++ concat (tail <$> chains')
  end.

(** The parts of a path between neighbouring positions, both included. *)
Fixpoint chain_slices {C : Type} (path : list C) (positions : list nat)
  : list (list C) :=
  match positions with
  | [] => []
  | a :: t =>
      match t with
      | [] => []
      | b :: _ => slice path a (b + 1) :: chain_slices path t
      end
  end.

(** The chains of the path [path_name] are in the bubbles: the bubble of
    rank [k] holds the part of the path between the endpoints of ranks [k]
    and [k + 1]. *)
Definition stored (gfa_graph : Graph) (bubbles_endpoints : list string)
    (path_name : string)
    (bubbles : list (gmap string (list (string * Orientation)))) : Prop :=
  ∀ path positions,
    dict_get (paths gfa_graph) path_name = Some path →
    mapM (index (path.*1)) bubbles_endpoints = Some positions →
    ∀ k a b,
      positions !! k = Some a → positions !! S k = Some b →
      ∃ bubble, bubbles !! k = Some bubble ∧
                bubble !! path_name = Some (slice path a (b + 1)).

(** Every endpoint is a node of every path. *)
Definition anchored (gfa_graph : Graph) (bubbles_endpoints : list string)
  : Prop :=
  ∀ item, item ∈ paths gfa_graph →
    ∀ x, x ∈ bubbles_endpoints → x ∈ item.2.*1.

(** No endpoint is embedded in a chain. *)
Definition clean (bubbles : list (gmap string (list string)))
    (bubbles_endpoints : list string) : Prop :=
  ∀ x, x ∈ bubbles_endpoints → x ∉ embed_nodes bubbles.

(** Positions that grow along the list. *)
Definition increasing (positions : list nat) : Prop :=
  ∀ k a b, positions !! k = Some a → positions !! S k = Some b → (a < b)%nat.

(** A chain without internal nodes whose two ends are the same node; the
    chain without any node is one. *)
Definition degenerate (chain : list (string * Orientation)) : Prop :=
  inner chain = [] ∧ fst <$> head chain = fst <$> last chain.

(** Every chain of every bubble is the part of its path between the first
    occurrences of two neighbouring endpoints, both included. *)
Definition sliced (gfa_graph : Graph) (bubbles_endpoints : list string)
    (bubbles : list (gmap string (list (string * Orientation)))) : Prop :=
  ∀ k bubble path_name chain,
    bubbles !! k = Some bubble → bubble !! path_name = Some chain →
    ∃ path positions a b,
      dict_get (paths gfa_graph) path_name = Some path ∧
      mapM (index (path.*1)) bubbles_endpoints = Some positions ∧
      positions !! k = Some a ∧ positions !! S k = Some b ∧
      chain = slice path a (b + 1).

Section Bubbles.

(** The built-in [int] on strings; [None] stands for its [ValueError]. *)
Variable int : string → option Z.

(** [sorted(l, key=int)] *)
Definition sorted_key_int (l : list string) : outcome (list string) :=
  keyed ← or_raise ValueError
    (mapM (fun x => (fun k : Z => (k, x)) <$> int x) l);
  Ok ((sorted_by (fun a b : Z * string => Z.leb a.1 b.1) keyed).*2).

Definition all_sets (gfa_graph : Graph) : list (string * list string) :=
  (fun item : string * list (string * Orientation) => (item.1, item.2.*1))
    <$> paths gfa_graph.

Definition all_maps (gfa_graph : Graph)
  : list (string * list (string * Orientation)) :=
  paths gfa_graph.

(** The value of [bubbles_endpoints] before the loop. *)
Definition initial_endpoints (gfa_graph : Graph) : outcome (list string) :=
  common ← common_members
    ((fun item : string * list string => list_to_set item.2)
       <$> all_sets gfa_graph);
  sorted_key_int common.

(** [grouper([all_sets[path_name].index(endpoint)
              for endpoint in bubbles_endpoints], 2)] *)
Definition endpoints_indexes (gfa_graph : Graph) (path_name : string)
    (bubbles_endpoints : list string) : outcome (list (list nat)) :=
  positions ← mapM (fun endpoint =>
      nodes ← or_raise KeyError (dict_get (all_sets gfa_graph) path_name);
      or_raise ValueError (index nodes endpoint)) bubbles_endpoints;
  grouper positions 2 1.

(** [for i, (start, end) in enumerate(endpoints_indexes):
       bubbles[i][path_name] = chain(start, end)];
    [k] is the index of the first element of [groups]. *)
Fixpoint assign_chains {C : Type} (chain : nat → nat → outcome C)
    (path_name : string) (k : nat) (groups : list (list nat))
    (bubbles : list (gmap string C)) : outcome (list (gmap string C)) :=
  match groups with
  | [] => Ok bubbles
  | group :: groups' =>
      match group with
      | [start; end_] =>
          c ← chain start end_;
          bubble ← or_raise IndexError (bubbles !! k);
          assign_chains chain path_name (S k) groups'
            (<[k := <[path_name := c]> bubble]> bubbles)
      | _ => Raise ValueError
      end
  end.

(** [all_sets[path_name][start:end]] *)
Definition name_chain (gfa_graph : Graph) (path_name : string)
    (start end_ : nat) : outcome (list string) :=
  nodes ← or_raise KeyError (dict_get (all_sets gfa_graph) path_name);
  Ok (slice nodes start end_).

(** [all_maps[path_name][start:end+1]] *)
Definition oriented_chain (gfa_graph : Graph) (path_name : string)
    (start end_ : nat) : outcome (list (string * Orientation)) :=
  path ← or_raise KeyError (dict_get (all_maps gfa_graph) path_name);
  Ok (slice path start (end_ + 1)).

(** The body of the [for] loop inside the [while]: the chains of one path
    are stored, then the endpoints embedded in a chain are dropped. *)
Definition path_step (gfa_graph : Graph) (path_name : string)
    (st : list (gmap string (list string)) * list string)
  : outcome (list (gmap string (list string)) * list string) :=
  let bubbles := st.1 in
  let bubbles_endpoints := st.2 in
  groups ← endpoints_indexes gfa_graph path_name bubbles_endpoints;
  bubbles' ← assign_chains (name_chain gfa_graph path_name) path_name 0
               groups bubbles;
  let embed_nodes := embed_nodes bubbles' in
  Ok (bubbles',
      filter (fun endpoint => endpoint ∉ embed_nodes) bubbles_endpoints).

Fixpoint for_paths (gfa_graph : Graph) (names : list string)
    (st : list (gmap string (list string)) * list string)
  : outcome (list (gmap string (list string)) * list string) :=
  match names with
  | [] => Ok st
  | path_name :: names' =>
      st' ← path_step gfa_graph path_name st;
      for_paths gfa_graph names' st'
  end.

(** One iteration of the [while]: the new value of [bubbles_endpoints]. *)
Definition iteration (gfa_graph : Graph) (bubbles_endpoints : list string)
  : outcome (list string) :=
  let bubbles : list (gmap string (list string)) :=
    replicate (length bubbles_endpoints - 1) ∅ in
  st ← for_paths gfa_graph (keys (paths gfa_graph))
         (bubbles, bubbles_endpoints);
  Ok st.2.

(** The loop [while len(bubbles_endpoints) != convergence], run for at most
    [fuel] iterations. *)
Fixpoint fixed_point (fuel : nat) (gfa_graph : Graph)
    (bubbles_endpoints : list string) (convergence : nat)
  : outcome (list string) :=
  if decide (length bubbles_endpoints ≠ convergence) then
    match fuel with
    | O => OutOfFuel
    | S fuel' =>
        bubbles_endpoints' ← iteration gfa_graph bubbles_endpoints;
        fixed_point fuel' gfa_graph bubbles_endpoints'
          (length bubbles_endpoints)
    end
  else Ok bubbles_endpoints.

(** The value of [bubbles_endpoints] after the loop; the loop is given one
    iteration per initial endpoint. *)
Definition final_endpoints (gfa_graph : Graph) : outcome (list string) :=
  bubbles_endpoints ← initial_endpoints gfa_graph;
  fixed_point (length bubbles_endpoints) gfa_graph bubbles_endpoints 0.

(** The last [for] loop, which fills [oriented_bubbles]. *)
Fixpoint extract (gfa_graph : Graph) (names : list string)
    (bubbles_endpoints : list string)
    (oriented_bubbles : list (gmap string (list (string * Orientation))))
  : outcome (list (gmap string (list (string * Orientation)))) :=
  match names with
  | [] => Ok oriented_bubbles
  | path_name :: names' =>
      groups ← endpoints_indexes gfa_graph path_name bubbles_endpoints;
      oriented_bubbles' ←
        assign_chains (oriented_chain gfa_graph path_name) path_name 0
          groups oriented_bubbles;
      extract gfa_graph names' bubbles_endpoints oriented_bubbles'
  end.

(** [bubble_caller(gfa_graph)] *)
Definition bubble_caller (gfa_graph : Graph)
  : outcome (list (gmap string (list (string * Orientation)))) :=
  bubbles_endpoints ← final_endpoints gfa_graph;
  extract gfa_graph (keys (paths gfa_graph)) bubbles_endpoints
    (replicate (length bubbles_endpoints - 1) ∅).

(** The test at the start of [linearize_bubbles]:
    [any([not len(x) for bubble in bubbles for x in bubble.values()])]. *)
Definition zero_sized {C : Type} (bubbles : list (gmap string (list C)))
  : bool :=
  existsb (fun bubble : gmap string (list C) =>
             existsb (fun item : string * list C =>
                        bool_decide (length item.2 = 0%nat))
               (map_to_list bubble)) bubbles.

(** *** [linearize_bubbles]

    The output graph is built through the interface of [Graph]; what is kept
    here is [path_builder], whose items are the paths given to the output
    graph, and the lookups of [gfa_graph.segments] made on the way.  The
    literal ['+'] is the value of [Forward]. *)

(** [for node, ori in [(source, ori_source), (sink, ori_sink)]] *)
Fixpoint visit_ends (gfa_graph : Graph) (ends : list (string * Orientation))
    (contained_nodes : gset string) : outcome (gset string) :=
  match ends with
  | [] => Ok contained_nodes
  | (node, _) :: ends' =>
      if decide (node ∈ contained_nodes) then
        visit_ends gfa_graph ends' contained_nodes
      else
        _ ← or_raise KeyError (segments gfa_graph !! node);
        visit_ends gfa_graph ends' ({[node]} ∪ contained_nodes)
  end.

(** The body of [for path_name, path_chain in bubble.items()]. *)
Definition linearize_chain (gfa_graph : Graph) (path_name : string)
    (path_chain : list (string * Orientation))
    (st : gset string * list (string * list (string * Orientation)))
  : outcome (gset string * list (string * list (string * Orientation))) :=
  let contained_nodes := st.1 in
  let path_builder := st.2 in
  source ← or_raise IndexError (head path_chain);
  let chained := slice path_chain 1 (length path_chain - 1) in
  sink ← or_raise IndexError (last path_chain);
  contained_nodes' ← visit_ends gfa_graph [source; sink] contained_nodes;
  match chained with
  | first :: _ =>
      let target := first.1 in
      _ ← mapM (fun step : string * Orientation =>
                  or_raise KeyError (segments gfa_graph !! step.1)) chained;
      built ← or_raise KeyError (dict_get path_builder path_name);
      if decide (length built = 0%nat) then
        Ok (contained_nodes',
            dict_set path_builder path_name
              [source; (target, Forward); sink])
      else
        Ok (contained_nodes',
            dict_set path_builder path_name
              (built ++ [(target, Forward); sink]))
  | [] =>
      built ← or_raise KeyError (dict_get path_builder path_name);
      if decide (length built = 0%nat) then
        Ok (contained_nodes',
            dict_set path_builder path_name [source; sink])
      else
        Ok (contained_nodes',
            dict_set path_builder path_name (built ++ [sink]))
  end.

Fixpoint linearize_items (gfa_graph : Graph)
    (items : list (string * list (string * Orientation)))
    (st : gset string * list (string * list (string * Orientation)))
  : outcome (gset string * list (string * list (string * Orientation))) :=
  match items with
  | [] => Ok st
  | (path_name, path_chain) :: items' =>
      st' ← linearize_chain gfa_graph path_name path_chain st;
      linearize_items gfa_graph items' st'
  end.

Fixpoint linearize_all (gfa_graph : Graph)
    (bubbles : list (gmap string (list (string * Orientation))))
    (st : gset string * list (string * list (string * Orientation)))
  : outcome (gset string * list (string * list (string * Orientation))) :=
  match bubbles with
  | [] => Ok st
  | bubble :: bubbles' =>
      st' ← linearize_items gfa_graph (map_to_list bubble) st;
      linearize_all gfa_graph bubbles' st'
  end.

(** [linearize_bubbles], from the graph it has loaded. *)
Definition linearize_bubbles (gfa_graph : Graph)
  : outcome (list (string * list (string * Orientation))) :=
  bubbles ← bubble_caller gfa_graph;
  if zero_sized bubbles then Raise ValueError
  else
    let path_builder :=
      (fun path_name : string =>
         (path_name, @nil (string * Orientation)))
        <$> keys (paths gfa_graph) in
    st ← linearize_all gfa_graph bubbles (∅, path_builder);
    Ok st.2.

End Bubbles.

End FindBubbles.

(** * Inputs used in the examples *)

Module Examples.

(** A segment of the given length. *)
Definition seg (len : Z) : Segment :=
  {| seg_length := len; seg_seq := ""; seg_PO := None |}.

(** A = [5,5] and B = [3,7]: the same ten bases, cut differently. *)
Definition scenario2_A : Graph :=
  {| segments := <["a1" := seg 5]> (<["a2" := seg 5]> ∅);
     paths := [("chr1", [("a1", Forward); ("a2", Forward)])] |}.

Definition scenario2_B : Graph :=
  {| segments := <["b1" := seg 3]> (<["b2" := seg 7]> ∅);
     paths := [("chr1", [("b1", Forward); ("b2", Forward)])] |}.

(** B = [3,4]: seven bases only. *)
Definition short_B : Graph :=
  {| segments := <["b1" := seg 3]> (<["b2" := seg 4]> ∅);
     paths := [("chr1", [("b1", Forward); ("b2", Forward)])] |}.

(** [int] on plain decimal literals. *)
Definition decimal (s : string) : option Z :=
  Z.of_int <$> NilZero.int_of_string s.

(** One path through the nodes 1, 2, 3. *)
Definition straight : Graph :=
  {| segments := <["1" := seg 4]> (<["2" := seg 2]> (<["3" := seg 1]> ∅));
     paths := [("h1", [("1", Forward); ("2", Forward); ("3", Forward)])] |}.

(** One path that meets node 2 before node 1. *)
Definition backwards : Graph :=
  {| segments := <["1" := seg 4]> (<["2" := seg 2]> ∅);
     paths := [("h1", [("2", Forward); ("1", Forward)])] |}.

End Examples.

(** * Boundaries of a segmentation *)

(** The positions at which the segments of a segmentation end, the first
    segment starting at [pos]. *)
Fixpoint boundaries_from (pos : Z) (lens : list Z) : list Z :=
  match lens with
  | [] => []
  | len :: lens' => (pos + len) :: boundaries_from (pos + len) lens'
  end.

Definition boundaries (lens : list Z) : list Z := boundaries_from 0 lens.

(** The boundaries of the first but not of the second segmentation. *)
Definition own_boundaries (lens lens' : list Z) : gset Z :=
  list_to_set (boundaries lens) ∖ list_to_set (boundaries lens').

Definition positive (lens : list Z) : Prop := Forall (fun len => 0 < len) lens.

(** What holds of the state of the co-traversal at the start of every
    iteration, on segments of positive length: the cursors are in range, the
    positions are those of the cursors, the two current segments overlap, and
    the sets hold the boundaries met so far that the other segmentation
    lacks. *)
Definition in_step (lens_A lens_B : list Z) (st : EditDistance.State) : Prop :=
  (EditDistance.i st ≤ length lens_A)%nat ∧
  (EditDistance.j st ≤ length lens_B)%nat ∧
  EditDistance.pos_A st
    = EditDistance.total_length (take (EditDistance.i st) lens_A) ∧
  EditDistance.pos_B st
    = EditDistance.total_length (take (EditDistance.j st) lens_B) ∧
  EditDistance.global_pos st
    = Z.max (EditDistance.pos_A st) (EditDistance.pos_B st) ∧
  ((EditDistance.j st < length lens_B)%nat →
   EditDistance.pos_A st
     < EditDistance.total_length (take (S (EditDistance.j st)) lens_B)) ∧
  ((EditDistance.i st < length lens_A)%nat →
   EditDistance.pos_B st
     < EditDistance.total_length (take (S (EditDistance.i st)) lens_A)) ∧
  EditDistance.splits st
    = own_boundaries (take (EditDistance.i st) lens_A) lens_B ∧
  EditDistance.merges st
    = own_boundaries (take (EditDistance.j st) lens_B) lens_A.

(** The boundaries of the first segmentation that the second lacks, up to
    the position [limit]. *)
Definition own_boundaries_upto (limit : Z) (lens lens' : list Z) : gset Z :=
  filter (fun z => z ≤ limit) (own_boundaries lens lens').

(** No cursor is past the end of the other segmentation. *)
Definition bounded (lens_A lens_B : list Z) (st : EditDistance.State) : Prop :=
  EditDistance.pos_A st ≤ EditDistance.total_length lens_B ∧
  EditDistance.pos_B st ≤ EditDistance.total_length lens_A.

(** * Properties of the co-traversal *)

Section CoTraversal.

Import EditDistance.

Implicit Types (st : State) (graph_A graph_B : Graph) (path_name : string).

Lemma dict_get_keys {V : Type} (d : list (string * V)) (k : string) :
  k ∈ keys d ↔ is_Some (dict_get d k).
Proof.
  unfold keys. induction d as [|[k' v] d IH]; simpl.
  - split; [intros H; inversion H | intros [? ?]; discriminate].
  - case_decide as Hk.
    + subst. split; [eauto | intros _; left].
    + rewrite elem_of_cons, IH. simpl.
      split; [intros [?|?]; [congruence|done] | auto].
Qed.

Lemma segmentation_Some g path_name lens :
  segmentation g path_name = Some lens →
  ∃ path, dict_get (paths g) path_name = Some path ∧
          length path = length lens ∧
          ∀ k len, lens !! k = Some len →
            ∃ step seg, path !! k = Some step ∧
                        segments g !! step.1 = Some seg ∧
                        seg_length seg = len.
Proof.
  unfold segmentation. intros H.
  destruct (dict_get (paths g) path_name) as [path|] eqn:Hp; [|discriminate].
  simpl in H. exists path. split; [done|].
  apply mapM_Some in H. split; [by eapply Forall2_length|].
  intros k len Hk.
  destruct (Forall2_lookup_r _ _ _ _ _ H Hk) as (step & Hstep & Hf).
  destruct (segments g !! step.1) as [seg|] eqn:Hs; [|discriminate].
  simpl in Hf. injection Hf as <-. eauto.
Qed.

Lemma loop_body_advance graph_A graph_B path_name st
    path_A path_B step_A step_B seg_A seg_B :
  dict_get (paths graph_A) path_name = Some path_A →
  dict_get (paths graph_B) path_name = Some path_B →
  path_A !! i st = Some step_A →
  path_B !! j st = Some step_B →
  segments graph_A !! step_A.1 = Some seg_A →
  segments graph_B !! step_B.1 = Some seg_B →
  loop_body graph_A graph_B path_name st =
  advance (seg_length seg_A) (seg_length seg_B) st.
Proof.
  intros HA HB HiA HjB HsA HsB. unfold loop_body.
  rewrite HA; simpl. rewrite HiA; simpl. rewrite HB; simpl.
  rewrite HjB; simpl. rewrite HsA; simpl. rewrite HsB; simpl.
  reflexivity.
Qed.

Lemma while_loop_run graph_A graph_B path_name lens_A lens_B :
  segmentation graph_A path_name = Some lens_A →
  segmentation graph_B path_name = Some lens_B →
  ∀ fuel st,
    while_loop fuel graph_A graph_B path_name st = run fuel lens_A lens_B st.
Proof.
  intros HA HB.
  destruct (segmentation_Some _ _ _ HA) as (path_A & HpA & HlA & HkA).
  destruct (segmentation_Some _ _ _ HB) as (path_B & HpB & HlB & HkB).
  induction fuel as [|fuel IH]; intros st; simpl;
    unfold loop_cond; rewrite HpA; simpl.
  - case_decide as Hi.
    + rewrite HpB; simpl. case_bool_decide as Hj.
      * destruct (lookup_lt_is_Some_2 lens_A (i st)) as [a ->]; [lia|].
        destruct (lookup_lt_is_Some_2 lens_B (j st)) as [b ->]; [lia|].
        reflexivity.
      * rewrite (lookup_ge_None_2 lens_B (j st)) by lia.
        by destruct (lens_A !! i st).
    + by rewrite (lookup_ge_None_2 lens_A (i st)) by lia.
  - case_decide as Hi.
    + rewrite HpB; simpl. case_bool_decide as Hj.
      * destruct (lookup_lt_is_Some_2 lens_A (i st)) as [a Ha]; [lia|].
        destruct (lookup_lt_is_Some_2 lens_B (j st)) as [b Hb]; [lia|].
        rewrite Ha, Hb.
        destruct (HkA _ _ Ha) as (sA & gA & H1 & H2 & <-).
        destruct (HkB _ _ Hb) as (sB & gB & H3 & H4 & <-).
        rewrite (loop_body_advance _ _ _ _ _ _ _ _ _ _ HpA HpB H1 H3 H2 H4).
        destruct (advance _ _ st) as [st'| |]; simpl; [apply IH|done|done].
      * rewrite (lookup_ge_None_2 lens_B (j st)) by lia.
        by destruct (lens_A !! i st).
    + by rewrite (lookup_ge_None_2 lens_A (i st)) by lia.
Qed.

(** *** One step *)

Lemma advance_cases len_A len_B st :
  let end_A := pos_A st + len_A in
  let end_B := pos_B st + len_B in
  let next := Z.min end_A end_B in
  advance len_A len_B st =
    if decide (end_A = end_B) then
      Ok {| i := S (i st); j := S (j st);
            merges := merges st; splits := splits st;
            pos_A := end_A; pos_B := end_B; global_pos := next |}
    else if decide (end_A < end_B) then
      Ok {| i := S (i st); j := j st;
            merges := merges st; splits := {[next]} ∪ splits st;
            pos_A := end_A; pos_B := pos_B st; global_pos := next |}
    else
      Ok {| i := i st; j := S (j st);
            merges := {[next]} ∪ merges st; splits := splits st;
            pos_A := pos_A st; pos_B := end_B; global_pos := next |}.
Proof.
  intros end_A end_B next. unfold advance.
  replace (global_pos st + (len_A - (global_pos st - pos_A st)))
    with end_A by (unfold end_A; lia).
  replace (global_pos st + (len_B - (global_pos st - pos_B st)))
    with end_B by (unfold end_B; lia).
  fold next.
  repeat case_decide; repeat case_bool_decide;
    try reflexivity; unfold next, end_A, end_B in *; lia.
Qed.

Lemma advance_ok len_A len_B st :
  ∃ st', advance len_A len_B st = Ok st' ∧
         (i st ≤ i st')%nat ∧ (j st ≤ j st')%nat ∧
         (i st + j st < i st' + j st')%nat.
Proof.
  rewrite advance_cases. repeat case_decide; eexists; (split; [reflexivity|]);
    simpl; lia.
Qed.

Lemma advance_swap len_A len_B st :
  advance len_B len_A (swap st) = swap <$> advance len_A len_B st.
Proof.
  rewrite !advance_cases. simpl.
  rewrite (Z.min_comm (pos_B st + len_B) (pos_A st + len_A)).
  repeat case_decide; try reflexivity; lia.
Qed.

(** *** The whole loop *)

Lemma run_total lens_A lens_B fuel :
  ∀ st,
    (length lens_A - i st + (length lens_B - j st) ≤ fuel)%nat →
    ∃ st', run fuel lens_A lens_B st = Ok st' ∧
           ((length lens_A ≤ i st')%nat ∨ (length lens_B ≤ j st')%nat).
Proof.
  induction fuel as [|fuel IH]; intros st Hfuel; simpl.
  - destruct (lens_A !! i st) as [a|] eqn:Ha.
    + destruct (lens_B !! j st) as [b|] eqn:Hb.
      * apply lookup_lt_Some in Ha, Hb. lia.
      * apply lookup_ge_None in Hb. eauto.
    + apply lookup_ge_None in Ha. eauto.
  - destruct (lens_A !! i st) as [a|] eqn:Ha.
    + destruct (lens_B !! j st) as [b|] eqn:Hb.
      * destruct (advance_ok a b st) as (st1 & -> & Hi & Hj & Hij). simpl.
        apply lookup_lt_Some in Ha, Hb. apply IH. lia.
      * apply lookup_ge_None in Hb. eauto.
    + apply lookup_ge_None in Ha. eauto.
Qed.

Lemma run_swap lens_A lens_B fuel :
  ∀ st, run fuel lens_B lens_A (swap st) = swap <$> run fuel lens_A lens_B st.
Proof.
  induction fuel as [|fuel IH]; intros st; simpl.
  - destruct (lens_A !! i st), (lens_B !! j st); reflexivity.
  - destruct (lens_A !! i st) as [a|], (lens_B !! j st) as [b|];
      try reflexivity.
    rewrite advance_swap.
    destruct (advance a b st) as [st1| |]; simpl; [apply IH|done|done].
Qed.

Lemma run_same lens fuel :
  ∀ st st',
    i st = j st → pos_A st = pos_B st →
    run fuel lens lens st = Ok st' →
    merges st' = merges st ∧ splits st' = splits st.
Proof.
  induction fuel as [|fuel IH]; intros st st' Hij Hpos; simpl.
  - rewrite Hij. destruct (lens !! j st); [discriminate|].
    by intros [= <-].
  - rewrite Hij. destruct (lens !! j st) as [a|]; [|by intros [= <-]].
    rewrite advance_cases. rewrite Hpos.
    rewrite decide_True by reflexivity. simpl.
    intros Hrun. apply IH in Hrun; simpl in *; [done|congruence|done].
Qed.

(** The bound [iterations] is enough on every pair of graphs: the loop
    returns or raises before it is reached. *)
Lemma loop_body_progress graph_A graph_B path_name st st' :
  loop_body graph_A graph_B path_name st = Ok st' →
  (i st ≤ i st')%nat ∧ (j st ≤ j st')%nat ∧
  (i st + j st < i st' + j st')%nat.
Proof.
  unfold loop_body.
  destruct (dict_get (paths graph_A) path_name) as [pa|]; simpl; [|done].
  destruct (pa !! i st) as [sa|]; simpl; [|done].
  destruct (dict_get (paths graph_B) path_name) as [pb|]; simpl; [|done].
  destruct (pb !! j st) as [sb|]; simpl; [|done].
  destruct (segments graph_A !! sa.1) as [ga|]; simpl; [|done].
  destruct (segments graph_B !! sb.1) as [gb|]; simpl; [|done].
  fold (advance (seg_length ga) (seg_length gb) st).
  destruct (advance_ok (seg_length ga) (seg_length gb) st)
    as (st1 & -> & H). by intros [= <-].
Qed.

Lemma while_loop_fuel graph_A graph_B path_name fuel :
  ∀ st,
    (path_len graph_A path_name - i st
     + (path_len graph_B path_name - j st) ≤ fuel)%nat →
    while_loop fuel graph_A graph_B path_name st ≠ OutOfFuel.
Proof.
  unfold path_len.
  induction fuel as [|fuel IH]; intros st Hfuel; simpl; unfold loop_cond;
    destruct (dict_get (paths graph_A) path_name) as [pa|]; simpl in *;
    try done;
    (case_decide as Hi; [|done]);
    destruct (dict_get (paths graph_B) path_name) as [pb|]; simpl in *;
    try done;
    (case_bool_decide as Hj; [|done]).
  - lia.
  - destruct (loop_body graph_A graph_B path_name st) as [st'| |] eqn:Hbody;
      simpl; [|done|].
    + apply loop_body_progress in Hbody. apply IH. lia.
    + exfalso. revert Hbody. unfold loop_body.
      destruct (dict_get (paths graph_A) path_name); simpl; [|done].
      destruct (_ !! i st); simpl; [|done].
      destruct (dict_get (paths graph_B) path_name); simpl; [|done].
      destruct (_ !! j st); simpl; [|done].
      destruct (segments graph_A !! _); simpl; [|done].
      destruct (segments graph_B !! _); simpl; [|done].
      repeat case_bool_decide; done.
Qed.

Lemma edit_single_path_path_level_total path_name graph_A graph_B :
  edit_single_path_path_level path_name graph_A graph_B ≠ OutOfFuel.
Proof.
  unfold edit_single_path_path_level.
  pose proof (while_loop_fuel graph_A graph_B path_name
                (iterations graph_A graph_B path_name) initial) as H.
  destruct (while_loop _ _ _ _ _); simpl; [done|done|].
  exfalso. apply H; [|done]. unfold iterations. simpl. lia.
Qed.

(** *** One path, and the loop over the selected paths *)

Lemma iterations_segmentation graph_A graph_B path_name lens_A lens_B :
  segmentation graph_A path_name = Some lens_A →
  segmentation graph_B path_name = Some lens_B →
  iterations graph_A graph_B path_name = (length lens_A + length lens_B)%nat.
Proof.
  intros HA HB.
  destruct (segmentation_Some _ _ _ HA) as (path_A & HpA & HlA & _).
  destruct (segmentation_Some _ _ _ HB) as (path_B & HpB & HlB & _).
  unfold iterations, path_len. rewrite HpA, HpB. simpl. lia.
Qed.

Lemma single_path_run graph_A graph_B path_name lens_A lens_B :
  segmentation graph_A path_name = Some lens_A →
  segmentation graph_B path_name = Some lens_B →
  ∃ st,
    run (length lens_A + length lens_B) lens_A lens_B initial = Ok st ∧
    ((length lens_A ≤ i st)%nat ∨ (length lens_B ≤ j st)%nat) ∧
    edit_single_path_path_level path_name graph_A graph_B
      = Ok (edition_of st).
Proof.
  intros HA HB.
  destruct (run_total lens_A lens_B (length lens_A + length lens_B) initial)
    as (st & Hrun & Hend); [simpl; lia|].
  exists st. split; [done|]. split; [done|].
  unfold edit_single_path_path_level.
  rewrite (iterations_segmentation _ _ _ _ _ HA HB).
  rewrite (while_loop_run _ _ _ _ _ HA HB), Hrun. reflexivity.
Qed.

Lemma for_paths_cons graph_A graph_B path_name names acc :
  for_paths graph_A graph_B (path_name :: names) acc =
  e ← edit_single_path_path_level path_name graph_A graph_B;
  for_paths graph_A graph_B names (<[path_name := e]> acc).
Proof.
  simpl. unfold edit_single_path_path_level.
  by destruct (while_loop _ _ _ _ _).
Qed.

Lemma for_paths_ok graph_A graph_B names :
  ∀ acc,
    (∀ p, p ∈ names →
          ∃ e, edit_single_path_path_level p graph_A graph_B = Ok e) →
    ∃ r, for_paths graph_A graph_B names acc = Ok r ∧
         (∀ p e, p ∈ names →
                 edit_single_path_path_level p graph_A graph_B = Ok e →
                 r !! p = Some e) ∧
         (∀ p, p ∉ names → r !! p = acc !! p).
Proof.
  induction names as [|q names IH]; intros acc Hall.
  - exists acc. split; [done|]. split; [|done].
    intros p e Hp. inversion Hp.
  - rewrite for_paths_cons.
    destruct (Hall q) as [eq Heq]; [left|]. rewrite Heq. simpl.
    destruct (IH (<[q := eq]> acc)) as (r & Hr & Hin & Hout).
    { intros p Hp. apply Hall. by right. }
    exists r. split; [done|]. split.
    + intros p e Hp He. destruct (decide (p ∈ names)) as [Hn|Hn].
      * by apply Hin.
      * apply elem_of_cons in Hp as [->|Hp]; [|done].
        rewrite Hout by done. rewrite lookup_insert_eq. congruence.
    + intros p Hp. rewrite not_elem_of_cons in Hp. destruct Hp as [Hne Hp].
      rewrite Hout by done. by rewrite lookup_insert_ne.
Qed.

Lemma path_level_edition_ok graph_A graph_B (selected_paths : gset string) :
  (∀ p, p ∈ selected_paths →
        ∃ e, edit_single_path_path_level p graph_A graph_B = Ok e) →
  ∃ r, path_level_edition graph_A graph_B selected_paths = Ok r ∧
       (∀ p e, p ∈ selected_paths →
               edit_single_path_path_level p graph_A graph_B = Ok e →
               r !! p = Some e) ∧
       (∀ p, p ∉ selected_paths → r !! p = None).
Proof.
  intros Hall. unfold path_level_edition.
  destruct (for_paths_ok graph_A graph_B (elements selected_paths) ∅)
    as (r & Hr & Hin & Hout).
  { intros p Hp. apply Hall. by apply elem_of_elements. }
  exists r. split; [done|]. split.
  - intros p e Hp. apply Hin. by apply elem_of_elements.
  - intros p Hp. rewrite Hout; [apply lookup_empty|].
    by rewrite elem_of_elements.
Qed.

Lemma edition_of_splits st :
  edition_of st !! "splits" = Some (sorted_ints (splits st)).
Proof. unfold edition_of. apply lookup_insert_eq. Qed.

Lemma edition_of_merges st :
  edition_of st !! "merges" = Some (sorted_ints (merges st)).
Proof.
  unfold edition_of. rewrite lookup_insert_ne by done. apply lookup_insert_eq.
Qed.

Lemma sorted_ints_empty : sorted_ints ∅ = [].
Proof. unfold sorted_ints. by rewrite elements_empty. Qed.

(** ** The claims on the co-traversal *)

(** C1: an iteration of the loop, entered with both cursors in range and
    both current nodes among the segments, moves [global_pos] to the smaller
    of the two next boundaries [end_A = pos_A + length(A[i])] and
    [end_B = pos_B + length(B[j])].  When only [end_A] is reached it records
    a split there, moves [pos_A] to [end_A] and increments [i] alone; when
    only [end_B] is reached it records a merge there, moves [pos_B] to
    [end_B] and increments [j] alone; when both are reached it records
    nothing and increments both cursors. *)
Theorem loop_body_classifies graph_A graph_B path_name st
    path_A path_B step_A step_B seg_A seg_B :
  dict_get (paths graph_A) path_name = Some path_A →
  dict_get (paths graph_B) path_name = Some path_B →
  path_A !! i st = Some step_A →
  path_B !! j st = Some step_B →
  segments graph_A !! step_A.1 = Some seg_A →
  segments graph_B !! step_B.1 = Some seg_B →
  let end_A := pos_A st + seg_length seg_A in
  let end_B := pos_B st + seg_length seg_B in
  let next := Z.min end_A end_B in
  (next = end_A ∧ next ≠ end_B →
   loop_body graph_A graph_B path_name st =
     Ok {| i := S (i st); j := j st;
           merges := merges st; splits := {[next]} ∪ splits st;
           pos_A := end_A; pos_B := pos_B st; global_pos := next |}) ∧
  (next ≠ end_A ∧ next = end_B →
   loop_body graph_A graph_B path_name st =
     Ok {| i := i st; j := S (j st);
           merges := {[next]} ∪ merges st; splits := splits st;
           pos_A := pos_A st; pos_B := end_B; global_pos := next |}) ∧
  (next = end_A ∧ next = end_B →
   loop_body graph_A graph_B path_name st =
     Ok {| i := S (i st); j := S (j st);
           merges := merges st; splits := splits st;
           pos_A := end_A; pos_B := end_B; global_pos := next |}).
Proof.
  intros HA HB HiA HjB HsA HsB end_A end_B next.
  rewrite (loop_body_advance _ _ _ _ _ _ _ _ _ _ HA HB HiA HjB HsA HsB).
  rewrite advance_cases. fold end_A end_B next.
  repeat split; intros [H1 H2]; repeat case_decide;
    try reflexivity; unfold next in *; lia.
Qed.

Lemma loop_body_classifies_witness :
  loop_body Examples.scenario2_A Examples.scenario2_B "chr1" initial =
    Ok {| i := 0; j := 1; merges := {[3]} ∪ ∅; splits := ∅;
          pos_A := 0; pos_B := 3; global_pos := 3 |}.
Proof.
  apply (loop_body_classifies Examples.scenario2_A Examples.scenario2_B
           "chr1" initial
           [("a1", Forward); ("a2", Forward)]
           [("b1", Forward); ("b2", Forward)]
           ("a1", Forward) ("b1", Forward)
           (Examples.seg 5) (Examples.seg 3));
    try reflexivity.
  split; [discriminate | reflexivity].
Defined.

(** C9: the branch [(False, False)] is never taken, with or without
    segmentations of equal total length: no iteration raises [ValueError],
    and neither do the loop, [edit_single_path_path_level] and
    [path_level_edition]. *)
Theorem neither_branch_unreachable graph_A graph_B path_name :
  (∀ st, loop_body graph_A graph_B path_name st ≠ Raise ValueError) ∧
  (∀ fuel st,
     while_loop fuel graph_A graph_B path_name st ≠ Raise ValueError) ∧
  edit_single_path_path_level path_name graph_A graph_B ≠ Raise ValueError ∧
  (∀ selected_paths : gset string,
     path_level_edition graph_A graph_B selected_paths ≠ Raise ValueError).
Proof.
  assert (Hbody : ∀ g1 g2 p st, loop_body g1 g2 p st ≠ Raise ValueError).
  { intros g1 g2 p st. unfold loop_body.
    destruct (dict_get (paths g1) p) as [pa|]; simpl; [|discriminate].
    destruct (pa !! i st) as [sa|]; simpl; [|discriminate].
    destruct (dict_get (paths g2) p) as [pb|]; simpl; [|discriminate].
    destruct (pb !! j st) as [sb|]; simpl; [|discriminate].
    destruct (segments g1 !! sa.1) as [ga|]; simpl; [|discriminate].
    destruct (segments g2 !! sb.1) as [gb|]; simpl; [|discriminate].
    change (advance (seg_length ga) (seg_length gb) st ≠ Raise ValueError).
    rewrite advance_cases. repeat case_decide; discriminate. }
  assert (Hloop : ∀ g1 g2 p fuel st,
             while_loop fuel g1 g2 p st ≠ Raise ValueError).
  { intros g1 g2 p fuel. induction fuel as [|fuel IH]; intros st; simpl.
    - unfold loop_cond.
      destruct (dict_get (paths g1) p); simpl; [|discriminate].
      case_decide; [|discriminate].
      destruct (dict_get (paths g2) p); simpl; [|discriminate].
      case_bool_decide; discriminate.
    - unfold loop_cond.
      destruct (dict_get (paths g1) p); simpl; [|discriminate].
      case_decide; [|discriminate].
      destruct (dict_get (paths g2) p); simpl; [|discriminate].
      case_bool_decide; [|discriminate].
      specialize (Hbody g1 g2 p st).
      destruct (loop_body g1 g2 p st) as [st'|e|]; simpl;
        [apply IH|congruence|discriminate]. }
  split; [apply Hbody|]. split; [apply Hloop|]. split.
  - unfold edit_single_path_path_level.
    specialize (Hloop graph_A graph_B path_name
                  (iterations graph_A graph_B path_name) initial).
    destruct (while_loop _ _ _ _ _); simpl;
      [discriminate|congruence|discriminate].
  - intros selected_paths. unfold path_level_edition.
    generalize (∅ : gmap string (gmap string (list Z))).
    induction (elements selected_paths) as [|p names IH]; intros acc; simpl.
    + discriminate.
    + specialize (Hloop graph_A graph_B p
                    (iterations graph_A graph_B p) initial).
      destruct (while_loop _ _ _ _ _); simpl;
        [apply IH|congruence|discriminate].
Qed.

(** C3: on paths that both graphs hold with all their segments, exchanging
    the two graphs exchanges the splits and the merges: both runs return a
    result, and for every selected path the splits of (A, B) are the merges
    of (B, A) and the merges of (A, B) are the splits of (B, A). *)
Theorem swap_graphs_swaps_roles graph_A graph_B (selected_paths : gset string) :
  (∀ p, p ∈ selected_paths →
        is_Some (segmentation graph_A p) ∧ is_Some (segmentation graph_B p)) →
  ∃ r_AB r_BA,
    path_level_edition graph_A graph_B selected_paths = Ok r_AB ∧
    path_level_edition graph_B graph_A selected_paths = Ok r_BA ∧
    ∀ p, p ∈ selected_paths →
      ∃ e_AB e_BA splits_AB merges_AB,
        r_AB !! p = Some e_AB ∧ r_BA !! p = Some e_BA ∧
        e_AB !! "splits" = Some splits_AB ∧
        e_BA !! "merges" = Some splits_AB ∧
        e_AB !! "merges" = Some merges_AB ∧
        e_BA !! "splits" = Some merges_AB.
Proof.
  intros Hsel.
  destruct (path_level_edition_ok graph_A graph_B selected_paths)
    as (r_AB & HAB & HinAB & _).
  { intros p Hp. destruct (Hsel p Hp) as [[la Hla] [lb Hlb]].
    destruct (single_path_run _ _ _ _ _ Hla Hlb) as (st & _ & _ & ->). eauto. }
  destruct (path_level_edition_ok graph_B graph_A selected_paths)
    as (r_BA & HBA & HinBA & _).
  { intros p Hp. destruct (Hsel p Hp) as [[la Hla] [lb Hlb]].
    destruct (single_path_run _ _ _ _ _ Hlb Hla) as (st & _ & _ & ->). eauto. }
  exists r_AB, r_BA. split; [done|]. split; [done|].
  intros p Hp. destruct (Hsel p Hp) as [[la Hla] [lb Hlb]].
  destruct (single_path_run _ _ _ _ _ Hla Hlb) as (st & Hrun & _ & HeAB).
  destruct (single_path_run _ _ _ _ _ Hlb Hla) as (st' & Hrun' & _ & HeBA).
  assert (st' = swap st) as ->.
  { change initial with (swap initial) in Hrun'.
    rewrite run_swap in Hrun'.
    rewrite (Nat.add_comm (length lb)) in Hrun'. rewrite Hrun in Hrun'.
    simpl in Hrun'. congruence. }
  exists (edition_of st), (edition_of (swap st)),
    (sorted_ints (splits st)), (sorted_ints (merges st)).
  split; [by apply HinAB|]. split; [by apply HinBA|].
  rewrite !edition_of_splits, !edition_of_merges. done.
Qed.

Lemma swap_graphs_swaps_roles_witness :
  ∃ r_AB r_BA,
    path_level_edition Examples.scenario2_A Examples.scenario2_B {["chr1"]}
      = Ok r_AB ∧
    path_level_edition Examples.scenario2_B Examples.scenario2_A {["chr1"]}
      = Ok r_BA ∧
    ∀ p, p ∈ ({["chr1"]} : gset string) →
      ∃ e_AB e_BA splits_AB merges_AB,
        r_AB !! p = Some e_AB ∧ r_BA !! p = Some e_BA ∧
        e_AB !! "splits" = Some splits_AB ∧
        e_BA !! "merges" = Some splits_AB ∧
        e_AB !! "merges" = Some merges_AB ∧
        e_BA !! "splits" = Some merges_AB.
Proof.
  apply (swap_graphs_swaps_roles Examples.scenario2_A Examples.scenario2_B).
  intros p Hp. apply elem_of_singleton in Hp. subst p.
  split; eexists; vm_compute; reflexivity.
Defined.

(** C4: a path compared with a copy of itself (the same segment lengths in
    the same order) has no split and no merge. *)
Theorem identity_no_edition graph_A graph_B (selected_paths : gset string) :
  (∀ p, p ∈ selected_paths →
        ∃ lens, segmentation graph_A p = Some lens ∧
                segmentation graph_B p = Some lens) →
  ∃ r,
    path_level_edition graph_A graph_B selected_paths = Ok r ∧
    ∀ p, p ∈ selected_paths →
      r !! p = Some (<["splits" := []]> (<["merges" := []]> ∅)).
Proof.
  intros Hsel.
  destruct (path_level_edition_ok graph_A graph_B selected_paths)
    as (r & Hr & Hin & _).
  { intros p Hp. destruct (Hsel p Hp) as (lens & Hla & Hlb).
    destruct (single_path_run _ _ _ _ _ Hla Hlb) as (st & _ & _ & ->). eauto. }
  exists r. split; [done|]. intros p Hp.
  destruct (Hsel p Hp) as (lens & Hla & Hlb).
  destruct (single_path_run _ _ _ _ _ Hla Hlb) as (st & Hrun & _ & He).
  rewrite (Hin p _ Hp He).
  apply run_same in Hrun as [Hm Hs]; [|done|done].
  unfold edition_of. rewrite Hm, Hs. simpl.
  by rewrite sorted_ints_empty.
Qed.

Lemma identity_no_edition_witness :
  ∃ r,
    path_level_edition Examples.scenario2_A Examples.scenario2_A {["chr1"]}
      = Ok r ∧
    ∀ p, p ∈ ({["chr1"]} : gset string) →
      r !! p = Some (<["splits" := []]> (<["merges" := []]> ∅)).
Proof.
  apply (identity_no_edition Examples.scenario2_A Examples.scenario2_A).
  intros p Hp. apply elem_of_singleton in Hp. subst p.
  exists [5; 5]. split; vm_compute; reflexivity.
Defined.

(** C5, as the code has it: with A = [5,5] and B = [3,7], the boundary of B
    at 3 is met first and is a merge, the boundary of A at 5 is a split:
    merges = [3] and splits = [5]. *)
Theorem scenario2_edition :
  path_level_edition Examples.scenario2_A Examples.scenario2_B {["chr1"]}
    = Ok {["chr1" := <["splits" := [5]]> (<["merges" := [3]]> ∅)]}.
Proof. vm_compute. reflexivity. Qed.

(** C5, as the claim has it (splits = [3] and merges = [5]), does not
    hold. *)
Lemma scenario2_not_as_claimed :
  path_level_edition Examples.scenario2_A Examples.scenario2_B {["chr1"]}
    ≠ Ok {["chr1" := <["splits" := [3]]> (<["merges" := [5]]> ∅)]}.
Proof.
  intros H.
  apply (f_equal (fun m : outcome (gmap string (gmap string (list Z))) =>
           match m with
           | Ok r => r !! "chr1" ≫= (fun e => e !! "splits")
           | _ => None
           end)) in H.
  vm_compute in H. discriminate.
Qed.

(** C2, as the code has it: the total lengths are not compared.  On paths
    that both graphs hold with all their segments, whatever the two total
    lengths, no error is raised: the loop stops when one of the two
    segmentations is exhausted, and the merges and the splits met until
    there are the result of the path. *)
Theorem mismatch_not_detected graph_A graph_B (selected_paths : gset string) :
  (∀ p, p ∈ selected_paths →
        is_Some (segmentation graph_A p) ∧ is_Some (segmentation graph_B p)) →
  ∃ r,
    path_level_edition graph_A graph_B selected_paths = Ok r ∧
    ∀ p lens_A lens_B,
      p ∈ selected_paths →
      segmentation graph_A p = Some lens_A →
      segmentation graph_B p = Some lens_B →
      ∃ st,
        while_loop (iterations graph_A graph_B p) graph_A graph_B p initial
          = Ok st ∧
        ((length lens_A ≤ i st)%nat ∨ (length lens_B ≤ j st)%nat) ∧
        r !! p = Some (edition_of st).
Proof.
  intros Hsel.
  destruct (path_level_edition_ok graph_A graph_B selected_paths)
    as (r & Hr & Hin & _).
  { intros p Hp. destruct (Hsel p Hp) as [[la Hla] [lb Hlb]].
    destruct (single_path_run _ _ _ _ _ Hla Hlb) as (st & _ & _ & ->). eauto. }
  exists r. split; [done|]. intros p la lb Hp Hla Hlb.
  destruct (single_path_run _ _ _ _ _ Hla Hlb) as (st & Hrun & Hend & He).
  exists st. split; [|split; [done|by apply Hin]].
  rewrite (iterations_segmentation _ _ _ _ _ Hla Hlb).
  by rewrite (while_loop_run _ _ _ _ _ Hla Hlb).
Qed.

Lemma mismatch_not_detected_witness :
  ∃ r,
    path_level_edition Examples.scenario2_A Examples.short_B {["chr1"]}
      = Ok r ∧
    ∀ p lens_A lens_B,
      p ∈ ({["chr1"]} : gset string) →
      segmentation Examples.scenario2_A p = Some lens_A →
      segmentation Examples.short_B p = Some lens_B →
      ∃ st,
        while_loop (iterations Examples.scenario2_A Examples.short_B p)
          Examples.scenario2_A Examples.short_B p initial = Ok st ∧
        ((length lens_A ≤ i st)%nat ∨ (length lens_B ≤ j st)%nat) ∧
        r !! p = Some (edition_of st).
Proof.
  apply (mismatch_not_detected Examples.scenario2_A Examples.short_B).
  intros p Hp. apply elem_of_singleton in Hp. subst p.
  split; eexists; vm_compute; reflexivity.
Defined.

(** C2, as the claim has it, does not hold: A = [5,5] and B = [3,4] have
    total lengths 10 and 7, and the edition of the path is returned. *)
Lemma mismatch_returns_result :
  segmentation Examples.scenario2_A "chr1" = Some [5; 5] ∧
  segmentation Examples.short_B "chr1" = Some [3; 4] ∧
  total_length [5; 5] ≠ total_length [3; 4] ∧
  edit_single_path_path_level "chr1" Examples.scenario2_A Examples.short_B
    = Ok (<["splits" := [5]]> (<["merges" := [3; 7]]> ∅)) ∧
  path_level_edition Examples.scenario2_A Examples.short_B {["chr1"]}
    = Ok {["chr1" := <["splits" := [5]]> (<["merges" := [3; 7]]> ∅)]}.
Proof.
  split; [vm_compute; reflexivity|].
  split; [vm_compute; reflexivity|].
  split; [vm_compute; discriminate|].
  split; vm_compute; reflexivity.
Qed.

(** ** Sequential and parallel runs *)

Lemma collect_for_paths graph_A graph_B names :
  ∀ done acc,
    (editions ← futures_collector
       (fun args : string * Graph * Graph =>
          edit_single_path_path_level args.1.1 args.1.2 args.2)
       ((fun path_name => (path_name, graph_A, graph_B)) <$> names);
     collect (done ++ names) (length done) editions acc)
    = for_paths graph_A graph_B names acc.
Proof.
  unfold futures_collector.
  induction names as [|p names IH]; intros done acc.
  - reflexivity.
  - rewrite for_paths_cons. simpl.
    destruct (edit_single_path_path_level p graph_A graph_B) as [e| |];
      simpl; [|done|done].
    specialize (IH (done ++ [p]) (<[p := e]> acc)).
    rewrite <- (assoc_L (++)) in IH. simpl in IH.
    rewrite length_app in IH. simpl in IH.
    rewrite Nat.add_1_r in IH. rewrite <- IH.
    destruct (mapM _ _) as [k| |]; simpl; [|done|done].
    rewrite lookup_app_r by lia. rewrite Nat.sub_diag. reflexivity.
Qed.

(** On a set of paths, the parallel path-level edition is the sequential
    one. *)
Lemma path_level_edition_multiprocessing_eq graph_A graph_B
    (selected_paths : gset string) :
  path_level_edition_multiprocessing graph_A graph_B selected_paths
  = path_level_edition graph_A graph_B selected_paths.
Proof.
  unfold path_level_edition_multiprocessing, path_level_edition.
  exact (collect_for_paths graph_A graph_B (elements selected_paths) [] ∅).
Qed.

(** With a list of names as selection, the number of cores does not change
    the result of the path-level edition. *)
Lemma perform_edition_list_cores sequence_offsets graph_A graph_B names
    (cores cores' : Z) :
  perform_edition sequence_offsets graph_A graph_B false (SelList names) cores
  = perform_edition sequence_offsets graph_A graph_B false (SelList names)
      cores'.
Proof.
  unfold perform_edition. destruct (forallb _ names); [|done].
  simpl. rewrite path_level_edition_multiprocessing_eq.
  by repeat case_decide.
Qed.

(** C10, where the code departs from it: with the default selection and
    several cores, [set(selection)] is evaluated on a [bool] and the
    path-level edition raises [TypeError], whatever the graphs. *)
Theorem default_selection_parallel_raises sequence_offsets graph_A graph_B
    (b : bool) (cores : Z) :
  cores > 1 →
  perform_edition sequence_offsets graph_A graph_B false (SelBool b) cores
  = Raise TypeError.
Proof.
  intros Hcores. unfold perform_edition. by rewrite decide_True.
Qed.

Lemma default_selection_parallel_raises_witness :
  perform_edition id Examples.scenario2_A Examples.scenario2_B false
    (SelBool true) 2 = Raise TypeError.
Proof.
  apply (default_selection_parallel_raises id Examples.scenario2_A
           Examples.scenario2_B true 2).
  reflexivity.
Defined.

(** The sequential run on the same input returns the edition of the shared
    path. *)
Lemma default_selection_sequential_returns :
  perform_edition id Examples.scenario2_A Examples.scenario2_B false
    (SelBool true) 1
  = Ok (PathLevel
          {["chr1" := <["splits" := [5]]> (<["merges" := [3]]> ∅)]}).
Proof. vm_compute. reflexivity. Qed.

End CoTraversal.

(** * Properties of the built-ins *)

Section Builtins.

Context {A : Type}.

Lemma mapM_Ok {B : Type} (f : A → outcome B) (l : list A) (k : list B) :
  Forall2 (fun x y => f x = Ok y) l k → mapM f l = Ok k.
Proof.
  induction 1 as [|x y l k Hxy _ IH]; [done|].
  simpl. rewrite Hxy. simpl. rewrite IH. reflexivity.
Qed.

Lemma elem_of_insert_sorted (le : A → A → bool) (x y : A) (l : list A) :
  x ∈ insert_sorted le y l ↔ x = y ∨ x ∈ l.
Proof.
  induction l as [|z l IH]; simpl.
  - rewrite list_elem_of_singleton, elem_of_nil. tauto.
  - destruct (le y z).
    + by rewrite elem_of_cons.
    + rewrite !elem_of_cons, IH. tauto.
Qed.

Lemma insert_sorted_perm (le : A → A → bool) (x : A) (l : list A) :
  insert_sorted le x l ≡ₚ x :: l.
Proof.
  induction l as [|y l IH]; simpl; [done|].
  destruct (le x y); [done|]. rewrite IH. apply Permutation_swap.
Qed.

Lemma sorted_by_perm (le : A → A → bool) (l : list A) : sorted_by le l ≡ₚ l.
Proof.
  unfold sorted_by. induction l as [|x l IH]; simpl; [done|].
  by rewrite insert_sorted_perm, IH.
Qed.

Lemma elem_of_sorted_by (le : A → A → bool) (x : A) (l : list A) :
  x ∈ sorted_by le l ↔ x ∈ l.
Proof.
  unfold sorted_by. induction l as [|y l IH]; simpl; [done|].
  by rewrite elem_of_insert_sorted, elem_of_cons, IH.
Qed.

Lemma elem_of_slice (l : list A) (a b : nat) (x : A) :
  x ∈ slice l a b → ∃ q, (a ≤ q < b)%nat ∧ l !! q = Some x.
Proof.
  unfold slice. intros Hx.
  apply list_elem_of_lookup in Hx as [q Hq].
  rewrite lookup_drop in Hq. apply lookup_take_Some in Hq as [Hq Hlt].
  exists (a + q)%nat. split; [lia|done].
Qed.

Lemma elem_of_inner (l : list A) (x : A) : x ∈ inner l → x ∈ l.
Proof.
  unfold inner. rewrite removelast_firstn_len. intros Hx.
  apply subseteq_take in Hx. destruct l; [done|]. by right.
Qed.

Context `{EqDecision A}.

Lemma index_Some (l : list A) (x : A) (k : nat) :
  index l x = Some k →
  l !! k = Some x ∧ ∀ q, l !! q = Some x → (k ≤ q)%nat.
Proof.
  revert k. induction l as [|y l IH]; intros k; simpl; [done|].
  case_decide as Hy.
  - intros [= <-]. subst. split; [done|]. intros; lia.
  - destruct (index l x) as [k'|] eqn:Hk; [|done].
    intros [= <-]. destruct (IH k' eq_refl) as [H1 H2].
    split; [done|]. intros [|q] Hq; simpl in Hq; [congruence|].
    apply H2 in Hq. lia.
Qed.

Lemma index_elem_of (l : list A) (x : A) : x ∈ l → is_Some (index l x).
Proof.
  induction l as [|y l IH]; [by intros H%elem_of_nil|].
  simpl. case_decide; [eauto|].
  intros [?|Hx]%elem_of_cons; [congruence|].
  destruct (IH Hx) as [k ->]. eauto.
Qed.

End Builtins.

(** * Properties of the bubble caller *)

Section BubbleFacts.

Import FindBubbles.

Lemma length_consecutive {A : Type} (l : list A) :
  length (consecutive l) = (length l - 1)%nat.
Proof.
  induction l as [|a t IH]; [done|].
  destruct t as [|b t]; [done|].
  change (consecutive (a :: b :: t)) with ([a; b] :: consecutive (b :: t)).
  rewrite length_cons, IH. simpl. lia.
Qed.

Lemma range_1 (stop : nat) : range stop 1 = seq 0 stop.
Proof.
  unfold range. rewrite Nat.add_sub, Nat.div_1_r.
  rewrite <- (list_fmap_id (seq 0 stop)) at 2.
  apply list_fmap_ext. intros _ k _. simpl. lia.
Qed.

Lemma slices_consecutive {A : Type} (l : list A) :
  (fun k => slice l k (k + 2)) <$> seq 0 (length l - 1) = consecutive l.
Proof.
  induction l as [|a t IH]; [done|].
  destruct t as [|b t]; [done|].
  change (consecutive (a :: b :: t)) with ([a; b] :: consecutive (b :: t)).
  rewrite <- IH.
  replace (length (a :: b :: t) - 1)%nat with (S (length (b :: t) - 1))
    by (simpl; lia).
  rewrite <- cons_seq, <- fmap_S_seq. simpl fmap at 1.
  f_equal. rewrite <- list_fmap_compose.
  apply list_fmap_ext. intros _ k _. reflexivity.
Qed.

Lemma grouper_consecutive {A : Type} (l : list A) :
  grouper l 2 1 = Ok (consecutive l).
Proof.
  unfold grouper. rewrite decide_False by lia. rewrite decide_False by lia.
  change (2 - 1)%nat with 1%nat. rewrite range_1.
  by rewrite slices_consecutive.
Qed.

(** *** Storing the chains of a path *)

Lemma assign_chains_spec {C : Type} (chain : nat → nat → outcome C)
    (f : nat → nat → C) (path_name : string) :
  (∀ s e, chain s e = Ok (f s e)) →
  ∀ (positions : list nat) (k : nat) (bubbles : list (gmap string C)),
    (k + length (consecutive positions) ≤ length bubbles)%nat →
    ∃ bubbles',
      assign_chains chain path_name k (consecutive positions) bubbles
        = Ok bubbles' ∧
      length bubbles' = length bubbles ∧
      (∀ q, ¬ (k ≤ q < k + length (consecutive positions))%nat →
            bubbles' !! q = bubbles !! q) ∧
      (∀ q a b,
         positions !! q = Some a → positions !! S q = Some b →
         ∃ bubble, bubbles !! (k + q)%nat = Some bubble ∧
                   bubbles' !! (k + q)%nat
                     = Some (<[path_name := f a b]> bubble)).
Proof.
  intros Hchain. induction positions as [|a t IH]; intros k bubbles Hlen.
  { exists bubbles. repeat split; try done. }
  destruct t as [|b t].
  { exists bubbles. repeat split; try done. }
  change (consecutive (a :: b :: t)) with ([a; b] :: consecutive (b :: t))
    in *.
  rewrite length_cons in Hlen.
  destruct (lookup_lt_is_Some_2 bubbles k) as [bubble Hbubble]; [lia|].
  destruct (IH (S k) (<[k := <[path_name := f a b]> bubble]> bubbles))
    as (bubbles' & Hrun & Hlen' & Hout & Hin).
  { rewrite length_insert. lia. }
  exists bubbles'. split.
  { simpl. rewrite Hchain. simpl. rewrite Hbubble. simpl. exact Hrun. }
  rewrite length_insert in Hlen'. split; [done|]. split.
  - intros q Hq. rewrite length_cons in Hq.
    rewrite Hout by lia. apply list_lookup_insert_ne. lia.
  - intros [|q] a' b' Ha Hb.
    + simpl in Ha, Hb. injection Ha as <-. injection Hb as <-.
      rewrite Nat.add_0_r. exists bubble. split; [done|].
      rewrite Hout by lia. apply list_lookup_insert_eq. lia.
    + simpl in Ha. change ((a :: b :: t) !! S (S q)) with ((b :: t) !! S q)
        in Hb.
      destruct (Hin q a' b' Ha Hb) as (bubble1 & H1 & H2).
      rewrite list_lookup_insert_ne in H1 by lia.
      replace (k + S q)%nat with (S k + q)%nat by lia. eauto.
Qed.

Lemma elem_of_embed_nodes (bubbles : list (gmap string (list string)))
    (x : string) :
  x ∈ embed_nodes bubbles ↔
  ∃ bubble path_name chain,
    bubble ∈ bubbles ∧ bubble !! path_name = Some chain ∧ x ∈ inner chain.
Proof.
  unfold embed_nodes. rewrite elem_of_union_list. split.
  - intros (X & HX & Hx).
    apply list_elem_of_fmap in HX as (bubble & -> & Hbubble).
    apply elem_of_union_list in Hx as (Y & HY & Hx).
    apply list_elem_of_fmap in HY as ([path_name chain] & -> & Hitem).
    apply elem_of_map_to_list in Hitem. simpl in Hx.
    apply elem_of_list_to_set in Hx. eauto 6.
  - intros (bubble & path_name & chain & Hbubble & Hchain & Hx).
    eexists. split.
    { apply list_elem_of_fmap. exists bubble. split; [reflexivity|done]. }
    apply elem_of_union_list. eexists. split.
    { apply list_elem_of_fmap. exists (path_name, chain).
      split; [reflexivity|]. by apply elem_of_map_to_list. }
    simpl. by apply elem_of_list_to_set.
Qed.

Lemma embed_nodes_replicate (n : nat) : embed_nodes (replicate n ∅) = ∅.
Proof.
  apply set_eq. intros x. rewrite elem_of_embed_nodes. split.
  - intros (bubble & path_name & chain & Hbubble & Hchain & _).
    apply elem_of_replicate in Hbubble as [-> _].
    by rewrite lookup_empty in Hchain.
  - intros Hx. by apply not_elem_of_empty in Hx.
Qed.

(** *** The positions of the endpoints in a path *)

Lemma positions_exist (nodes : list string) (bubbles_endpoints : list string) :
  (∀ x, x ∈ bubbles_endpoints → x ∈ nodes) →
  ∃ positions,
    Forall2 (fun e k => index nodes e = Some k) bubbles_endpoints positions.
Proof.
  induction bubbles_endpoints as [|e eps IH]; intros Hin.
  - exists []. constructor.
  - destruct (index_elem_of nodes e) as [k Hk]; [apply Hin; left|].
    destruct IH as [positions Hpos]; [intros x Hx; apply Hin; by right|].
    exists (k :: positions). by constructor.
Qed.

Lemma endpoints_indexes_ok gfa_graph path_name nodes bubbles_endpoints
    positions :
  dict_get (all_sets gfa_graph) path_name = Some nodes →
  Forall2 (fun e k => index nodes e = Some k) bubbles_endpoints positions →
  endpoints_indexes gfa_graph path_name bubbles_endpoints
    = Ok (consecutive positions).
Proof.
  intros Hnodes Hpos. unfold endpoints_indexes.
  rewrite (mapM_Ok _ _ positions).
  - simpl. apply grouper_consecutive.
  - eapply Forall2_impl; [exact Hpos|].
    intros e k Hk. simpl. rewrite Hnodes. simpl. by rewrite Hk.
Qed.

Lemma max_position (nodes bubbles_endpoints : list string)
    (positions : list nat) :
  Forall2 (fun e k => index nodes e = Some k) bubbles_endpoints positions →
  bubbles_endpoints ≠ [] →
  ∃ x kx, x ∈ bubbles_endpoints ∧ index nodes x = Some kx ∧
          ∀ k, k ∈ positions → (k ≤ kx)%nat.
Proof.
  induction 1 as [|e k eps positions Hk Hrest IH]; intros Hne; [done|].
  destruct eps as [|e' eps].
  - inversion Hrest; subst. exists e, k. split; [left|]. split; [done|].
    intros k' Hk'. apply list_elem_of_singleton in Hk'. lia.
  - destruct IH as (x & kx & Hx & Hkx & Hmax); [done|].
    destruct (decide (k ≤ kx)%nat) as [Hle|Hgt].
    + exists x, kx. split; [by right|]. split; [done|].
      intros k' [->|Hk']%elem_of_cons; [done|by apply Hmax].
    + exists e, k. split; [left|]. split; [done|].
      intros k' [->|Hk']%elem_of_cons; [done|].
      apply Hmax in Hk'. lia.
Qed.

(** *** One path of one iteration *)

Lemma path_step_spec gfa_graph path_name nodes bubbles bubbles_endpoints :
  dict_get (all_sets gfa_graph) path_name = Some nodes →
  (∀ x, x ∈ bubbles_endpoints → x ∈ nodes) →
  (length bubbles_endpoints ≤ S (length bubbles))%nat →
  clean bubbles bubbles_endpoints →
  ∃ bubbles' bubbles_endpoints',
    path_step gfa_graph path_name (bubbles, bubbles_endpoints)
      = Ok (bubbles', bubbles_endpoints') ∧
    length bubbles' = length bubbles ∧
    bubbles_endpoints'
      = filter (fun e => e ∉ embed_nodes bubbles') bubbles_endpoints ∧
    clean bubbles' bubbles_endpoints' ∧
    (bubbles_endpoints ≠ [] → bubbles_endpoints' ≠ []).
Proof.
  intros Hnodes Hin Hlen Hclean.
  destruct (positions_exist nodes bubbles_endpoints Hin) as [positions Hpos].
  pose proof (Forall2_length _ _ _ Hpos) as Hlenpos.
  destruct (assign_chains_spec (name_chain gfa_graph path_name)
              (slice nodes) path_name) with (positions := positions)
              (k := 0%nat) (bubbles := bubbles)
    as (bubbles' & Hassign & Hlen' & Hout & Hinr).
  { intros s e. unfold name_chain. by rewrite Hnodes. }
  { rewrite length_consecutive. lia. }
  exists bubbles',
    (filter (fun endpoint => endpoint ∉ embed_nodes bubbles')
       bubbles_endpoints).
  split.
  { unfold path_step. simpl.
    rewrite (endpoints_indexes_ok _ _ _ _ _ Hnodes Hpos). simpl.
    rewrite Hassign. reflexivity. }
  split; [done|]. split; [done|]. split.
  { intros x Hx. by apply list_elem_of_filter in Hx as [Hx _]. }
  intros Hne.
  destruct (max_position _ _ _ Hpos Hne) as (x & kx & Hx & Hkx & Hmax).
  assert (x ∉ embed_nodes bubbles') as Hfresh.
  { intros (bubble' & q & chain & Hb' & Hq & Hxin)%elem_of_embed_nodes.
    apply list_elem_of_lookup in Hb' as [n Hn].
    destruct (decide (n < length (consecutive positions))%nat) as [Hlt|Hge].
    - rewrite length_consecutive in Hlt.
      destruct (lookup_lt_is_Some_2 positions n) as [a Ha]; [lia|].
      destruct (lookup_lt_is_Some_2 positions (S n)) as [b Hb]; [lia|].
      destruct (Hinr n a b Ha Hb) as (bubble & Hold & Hnew).
      simpl in Hold, Hnew. rewrite Hn in Hnew. injection Hnew as ->.
      destruct (decide (path_name = q)) as [<-|Hneq].
      + rewrite lookup_insert_eq in Hq. injection Hq as <-.
        apply elem_of_inner, elem_of_slice in Hxin as (pos & Hpos' & Hlook).
        apply index_Some in Hkx as [_ Hmin]. apply Hmin in Hlook.
        assert (b ≤ kx)%nat; [|lia].
        apply Hmax. by eapply list_elem_of_lookup_2.
      + rewrite lookup_insert_ne in Hq by done.
        apply (Hclean x Hx). apply elem_of_embed_nodes.
        exists bubble, q, chain. split; [|done].
        by eapply list_elem_of_lookup_2.
    - rewrite Hout in Hn by (simpl; lia).
      apply (Hclean x Hx). apply elem_of_embed_nodes.
      exists bubble', q, chain. split; [|done].
      by eapply list_elem_of_lookup_2. }
  intros Hnil.
  assert (x ∈ filter (fun endpoint => endpoint ∉ embed_nodes bubbles')
                bubbles_endpoints) as Hxf.
  { by apply list_elem_of_filter. }
  rewrite Hnil in Hxf. by apply elem_of_nil in Hxf.
Qed.

(** *** The paths of the graph *)

Lemma dict_get_elem_of {V : Type} (d : list (string * V)) (k : string)
    (v : V) :
  dict_get d k = Some v → (k, v) ∈ d.
Proof.
  induction d as [|[k' v'] d IH]; simpl; [done|].
  case_decide as Hk.
  - intros [= <-]. subst. left.
  - intros Hd. right. by apply IH.
Qed.

Lemma keys_all_sets gfa_graph : keys (all_sets gfa_graph) = keys (paths gfa_graph).
Proof.
  unfold keys, all_sets. rewrite <- list_fmap_compose.
  by apply list_fmap_ext.
Qed.

Lemma dict_get_all_sets gfa_graph path_name :
  dict_get (all_sets gfa_graph) path_name
  = (fun path : list (string * Orientation) => path.*1)
      <$> dict_get (paths gfa_graph) path_name.
Proof.
  unfold all_sets. induction (paths gfa_graph) as [|[k v] d IH]; [done|].
  simpl. case_decide; [done|]. exact IH.
Qed.

Lemma anchored_nodes gfa_graph bubbles_endpoints path_name :
  anchored gfa_graph bubbles_endpoints →
  path_name ∈ keys (paths gfa_graph) →
  ∃ nodes, dict_get (all_sets gfa_graph) path_name = Some nodes ∧
           ∀ x, x ∈ bubbles_endpoints → x ∈ nodes.
Proof.
  intros Hanch Hkey. apply dict_get_keys in Hkey as [path Hpath].
  exists (path.*1). split.
  - rewrite dict_get_all_sets, Hpath. reflexivity.
  - intros x Hx. apply dict_get_elem_of in Hpath.
    apply (Hanch _ Hpath x Hx).
Qed.

Lemma anchored_sublist gfa_graph l l' :
  anchored gfa_graph l → l' `sublist_of` l → anchored gfa_graph l'.
Proof.
  intros Hanch Hsub item Hitem x Hx. apply (Hanch item Hitem).
  by eapply (sublist_subseteq l' l).
Qed.

(** *** One iteration, and the fixed point *)

Lemma filter_all (P : string → Prop) `{∀ x, Decision (P x)}
    (l : list string) :
  (∀ x, P x) → filter P l = l.
Proof.
  intros HP. induction l as [|x l IH]; [done|].
  rewrite filter_cons_True by apply HP. by rewrite IH.
Qed.

Lemma for_paths_spec gfa_graph names :
  (∀ p, p ∈ names → p ∈ keys (paths gfa_graph)) →
  ∀ bubbles bubbles_endpoints,
    anchored gfa_graph bubbles_endpoints →
    (length bubbles_endpoints ≤ S (length bubbles))%nat →
    clean bubbles bubbles_endpoints →
    ∃ bubbles' bubbles_endpoints',
      for_paths gfa_graph names (bubbles, bubbles_endpoints)
        = Ok (bubbles', bubbles_endpoints') ∧
      (∃ embedded : gset string,
         bubbles_endpoints'
           = filter (fun e => e ∉ embedded) bubbles_endpoints) ∧
      (bubbles_endpoints ≠ [] → bubbles_endpoints' ≠ []).
Proof.
  induction names as [|p names IH]; intros Hkeys bubbles eps Hanch Hlen Hclean.
  - exists bubbles, eps. split; [done|]. split; [|done].
    exists ∅. symmetry. apply filter_all. intros x. apply not_elem_of_empty.
  - destruct (anchored_nodes gfa_graph eps p Hanch) as (nodes & Hnodes & Hin).
    { apply Hkeys. left. }
    destruct (path_step_spec _ _ _ _ _ Hnodes Hin Hlen Hclean)
      as (bubbles1 & eps1 & Hstep & Hlen1 & Hfil1 & Hclean1 & Hne1).
    assert (eps1 `sublist_of` eps) as Hsub1.
    { rewrite Hfil1. apply sublist_filter. }
    destruct (IH (fun q Hq => Hkeys q (list_elem_of_further _ _ _ Hq))
                bubbles1 eps1)
      as (bubbles' & eps' & Hrun & [E Hfil] & Hne).
    { by eapply anchored_sublist. }
    { apply sublist_length in Hsub1. lia. }
    { done. }
    exists bubbles', eps'. split.
    { simpl. rewrite Hstep. simpl. exact Hrun. }
    split; [|intros H; by apply Hne, Hne1].
    exists (E ∪ embed_nodes bubbles1).
    rewrite Hfil, Hfil1, list_filter_filter.
    apply list_filter_iff. intros x. by rewrite not_elem_of_union.
Qed.

Lemma iteration_spec gfa_graph bubbles_endpoints :
  anchored gfa_graph bubbles_endpoints →
  ∃ bubbles_endpoints',
    iteration gfa_graph bubbles_endpoints = Ok bubbles_endpoints' ∧
    (∃ embedded : gset string,
       bubbles_endpoints'
         = filter (fun e => e ∉ embedded) bubbles_endpoints) ∧
    (bubbles_endpoints ≠ [] → bubbles_endpoints' ≠ []).
Proof.
  intros Hanch.
  destruct (for_paths_spec gfa_graph (keys (paths gfa_graph)))
    with (bubbles := replicate (length bubbles_endpoints - 1)
                       (∅ : gmap string (list string)))
         (bubbles_endpoints := bubbles_endpoints)
    as (bubbles' & eps' & Hrun & Hfil & Hne); [done|done| | |].
  { rewrite length_replicate. lia. }
  { intros x _. rewrite embed_nodes_replicate. apply not_elem_of_empty. }
  exists eps'. split; [|done].
  unfold iteration. rewrite Hrun. reflexivity.
Qed.

Lemma fixed_point_spec gfa_graph fuel :
  ∀ bubbles_endpoints convergence,
    anchored gfa_graph bubbles_endpoints →
    ((length bubbles_endpoints ≤ fuel)%nat ∧ bubbles_endpoints ≠ []
     ∨ length bubbles_endpoints = convergence) →
    ∃ final,
      fixed_point fuel gfa_graph bubbles_endpoints convergence = Ok final ∧
      final `sublist_of` bubbles_endpoints.
Proof.
  induction fuel as [|fuel IH]; intros eps c Hanch Hcase.
  - exists eps. split; [|done]. simpl.
    case_decide as Hc; [|done].
    destruct Hcase as [[Hlen Hne]|Hc']; [|done].
    destruct eps; [done|simpl in Hlen; lia].
  - simpl. case_decide as Hc; [|by exists eps].
    destruct Hcase as [[Hlen Hne]|Hc']; [|done].
    destruct (iteration_spec gfa_graph eps Hanch)
      as (eps' & -> & [E Hfil] & Hne').
    assert (eps' `sublist_of` eps) as Hsub.
    { rewrite Hfil. apply sublist_filter. }
    simpl. specialize (Hne' Hne).
    destruct (IH eps' (length eps)) as (final & Hrun & Hfinal).
    { by eapply anchored_sublist. }
    { pose proof (sublist_length _ _ Hsub) as Hle.
      destruct (decide (length eps' = length eps)) as [?|?]; [by right|].
      left. split; [lia|done]. }
    exists final. split; [done|by etrans].
Qed.

(** *** The endpoints before the loop *)

Lemma foldl_intersection (l : list (gset string)) :
  ∀ (s : gset string) x,
    x ∈ foldl (∩) s l ↔ x ∈ s ∧ ∀ t, t ∈ l → x ∈ t.
Proof.
  induction l as [|t l IH]; intros s x; simpl.
  - split; [intros H; split; [done|] | by intros [H _]].
    intros t Ht. by apply elem_of_nil in Ht.
  - rewrite IH, elem_of_intersection. split.
    + intros [[Hs Ht] Hl]. split; [done|].
      intros t' [->|Ht']%elem_of_cons; [done|by apply Hl].
    + intros [Hs Hl]. split; [split; [done|apply Hl; left]|].
      intros t' Ht'. apply Hl. by right.
Qed.

(** *** The chains of the result *)

Lemma slice_app {A : Type} (l : list A) (a m n : nat) :
  (a ≤ m)%nat → (m ≤ n)%nat → (m ≤ length l)%nat →
  slice l a m ++ slice l m n = slice l a n.
Proof.
  intros Ham Hmn Hml. unfold slice.
  rewrite <- (take_drop m (take n l)) at 2.
  rewrite take_take, Nat.min_l by done.
  rewrite drop_app_le; [done|]. rewrite length_take. lia.
Qed.

Lemma tail_slice {A : Type} (l : list A) (a b : nat) :
  tail (slice l a b) = slice l (S a) b.
Proof.
  unfold slice. generalize (take b l). clear l. intros l. revert l.
  induction a as [|a IH]; intros [|x l]; simpl; done.
Qed.

Lemma slice_same {A : Type} (l : list A) (a : nat) : slice l a a = [].
Proof. unfold slice. apply drop_ge. rewrite length_take. lia. Qed.

Lemma increasing_cons (a b : nat) (t : list nat) :
  increasing (a :: b :: t) → (a < b)%nat ∧ increasing (b :: t).
Proof.
  intros Hinc. split.
  - by apply (Hinc 0%nat a b).
  - intros k x y Hx Hy. by apply (Hinc (S k) x y).
Qed.

Lemma increasing_last (t : list nat) :
  ∀ a z, increasing (a :: t) → last (a :: t) = Some z → (a ≤ z)%nat.
Proof.
  induction t as [|b t IH]; intros a z Hinc Hlast.
  - simpl in Hlast. injection Hlast as <-. done.
  - apply increasing_cons in Hinc as [Hab Hinc].
    change (last (a :: b :: t)) with (last (b :: t)) in Hlast.
    specialize (IH b z Hinc Hlast). lia.
Qed.

Lemma length_chain_slices {C : Type} (path : list C) (positions : list nat) :
  length (chain_slices path positions) = (length positions - 1)%nat.
Proof.
  induction positions as [|a t IH]; [done|].
  destruct t as [|b t]; [done|].
  change (chain_slices path (a :: b :: t))
    with (slice path a (b + 1) :: chain_slices path (b :: t)).
  rewrite length_cons, IH. simpl. lia.
Qed.

Lemma lookup_chain_slices {C : Type} (path : list C) (positions : list nat) :
  ∀ k a b,
    positions !! k = Some a → positions !! S k = Some b →
    chain_slices path positions !! k = Some (slice path a (b + 1)).
Proof.
  induction positions as [|a' t IH]; intros k a b Ha Hb; [done|].
  destruct t as [|b' t]; [done|].
  change (chain_slices path (a' :: b' :: t))
    with (slice path a' (b' + 1) :: chain_slices path (b' :: t)).
  destruct k as [|k].
  - simpl in Ha, Hb. by injection Ha as <-; injection Hb as <-.
  - simpl in Ha. change ((a' :: b' :: t) !! S (S k)) with ((b' :: t) !! S k)
      in Hb.
    simpl. by apply IH.
Qed.

Lemma concat_tail_chain_slices {C : Type} (path : list C) (t : list nat) :
  ∀ b z,
    increasing (b :: t) →
    Forall (fun k => (k < length path)%nat) (b :: t) →
    last (b :: t) = Some z →
    concat (tail <$> chain_slices path (b :: t))
      = slice path (b + 1) (z + 1).
Proof.
  induction t as [|c t IH]; intros b z Hinc Hvalid Hlast.
  - simpl in Hlast. injection Hlast as <-. simpl.
    by rewrite slice_same.
  - change (chain_slices path (b :: c :: t))
      with (slice path b (c + 1) :: chain_slices path (c :: t)).
    change (last (b :: c :: t)) with (last (c :: t)) in Hlast.
    apply increasing_cons in Hinc as [Hbc Hinc].
    apply Forall_cons in Hvalid as [_ Hvalid].
    pose proof (increasing_last _ _ _ Hinc Hlast) as Hcz.
    rewrite fmap_cons. cbn [concat].
    rewrite (IH c z Hinc Hvalid Hlast), tail_slice.
    replace (S b) with (b + 1)%nat by lia.
    apply slice_app; [lia|lia|].
    apply Forall_cons in Hvalid as [Hc _]. lia.
Qed.

Lemma stitch_chain_slices {C : Type} (path : list C) (positions : list nat)
    (first last_ : nat) :
  increasing positions →
  Forall (fun k => (k < length path)%nat) positions →
  head positions = Some first →
  last positions = Some last_ →
  (1 < length positions)%nat →
  stitch (chain_slices path positions) = slice path first (last_ + 1).
Proof.
  intros Hinc Hvalid Hfirst Hlast Hlen.
  destruct positions as [|a [|b t]]; [done|simpl in Hlen; lia|].
  simpl in Hfirst. injection Hfirst as ->.
  change (chain_slices path (first :: b :: t))
    with (slice path first (b + 1) :: chain_slices path (b :: t)).
  change (last (first :: b :: t)) with (last (b :: t)) in Hlast.
  apply increasing_cons in Hinc as [Hab Hinc].
  apply Forall_cons in Hvalid as [_ Hvalid].
  pose proof (increasing_last _ _ _ Hinc Hlast) as Hbz.
  unfold stitch.
  rewrite (concat_tail_chain_slices path t b last_ Hinc Hvalid Hlast).
  apply slice_app; [lia|lia|].
  apply Forall_cons in Hvalid as [Hb _]. lia.
Qed.

Lemma chains_of_stored gfa_graph bubbles_endpoints path_name bubbles
    path positions :
  stored gfa_graph bubbles_endpoints path_name bubbles →
  dict_get (paths gfa_graph) path_name = Some path →
  mapM (index (path.*1)) bubbles_endpoints = Some positions →
  length bubbles = (length bubbles_endpoints - 1)%nat →
  chains_of path_name bubbles = chain_slices path positions.
Proof.
  intros Hstored Hpath Hm Hlen.
  assert (length positions = length bubbles_endpoints) as Hlenpos.
  { apply mapM_Some, Forall2_length in Hm. lia. }
  apply list_eq. intros k. unfold chains_of. rewrite list_lookup_fmap.
  destruct (decide (k < length bubbles)%nat) as [Hlt|Hge].
  - destruct (lookup_lt_is_Some_2 positions k) as [a Ha]; [lia|].
    destruct (lookup_lt_is_Some_2 positions (S k)) as [b Hb]; [lia|].
    destruct (Hstored path positions Hpath Hm k a b Ha Hb)
      as (bubble & -> & Hchain).
    simpl. rewrite Hchain. simpl.
    symmetry. by apply lookup_chain_slices.
  - rewrite (lookup_ge_None_2 bubbles k) by lia.
    symmetry. apply lookup_ge_None_2. rewrite length_chain_slices. lia.
Qed.

Lemma extract_spec gfa_graph bubbles_endpoints names :
  anchored gfa_graph bubbles_endpoints →
  (∀ p, p ∈ names → p ∈ keys (paths gfa_graph)) →
  ∀ oriented,
    (length bubbles_endpoints ≤ S (length oriented))%nat →
    ∃ oriented',
      extract gfa_graph names bubbles_endpoints oriented = Ok oriented' ∧
      length oriented' = length oriented ∧
      ∀ p, p ∈ names ∨ stored gfa_graph bubbles_endpoints p oriented →
           stored gfa_graph bubbles_endpoints p oriented'.
Proof.
  intros Hanch. induction names as [|p' names IH]; intros Hkeys oriented Hlen.
  { exists oriented. split; [done|]. split; [done|].
    intros p [Hp|Hp]; [by apply elem_of_nil in Hp|done]. }
  destruct (anchored_nodes gfa_graph bubbles_endpoints p' Hanch)
    as (nodes & Hnodes & Hin); [apply Hkeys; left|].
  pose proof Hnodes as Hpath. rewrite dict_get_all_sets in Hpath.
  destruct (dict_get (paths gfa_graph) p') as [path'|] eqn:Hpath'; [|done].
  simpl in Hpath. injection Hpath as <-.
  destruct (positions_exist _ _ Hin) as [positions' Hpos'].
  pose proof (Forall2_length _ _ _ Hpos') as Hlenpos.
  destruct (assign_chains_spec (oriented_chain gfa_graph p')
              (fun s e => slice path' s (e + 1)) p')
    with (positions := positions') (k := 0%nat) (bubbles := oriented)
    as (oriented1 & Hassign & Hlen1 & Hout & Hinr).
  { intros s e. unfold oriented_chain, all_maps. by rewrite Hpath'. }
  { rewrite length_consecutive. lia. }
  destruct (IH (fun q Hq => Hkeys q (list_elem_of_further _ _ _ Hq)) oriented1)
    as (oriented' & Hrun & Hlen' & Hstored); [lia|].
  exists oriented'. split.
  { simpl. rewrite (endpoints_indexes_ok _ _ _ _ _ Hnodes Hpos'). simpl.
    rewrite Hassign. simpl. exact Hrun. }
  split; [lia|].
  assert (stored gfa_graph bubbles_endpoints p' oriented1) as Hnew.
  { intros path positions Hp Hm k a b Ha Hb.
    rewrite Hpath' in Hp. injection Hp as <-.
    apply mapM_Some in Hpos'. rewrite Hpos' in Hm. injection Hm as <-.
    destruct (Hinr k a b Ha Hb) as (bubble & _ & Hk). simpl in Hk.
    exists (<[p' := slice path' a (b + 1)]> bubble). split; [done|].
    apply lookup_insert_eq. }
  intros p Hp. apply Hstored.
  destruct (decide (p = p')) as [->|Hne]; [by right|].
  destruct Hp as [Hp|Hp].
  { apply elem_of_cons in Hp as [?|Hp]; [done|by left]. }
  right. intros path positions Hpath Hm k a b Ha Hb.
  destruct (Hp path positions Hpath Hm k a b Ha Hb) as (bubble & Hk & Hchain).
  assert (length positions = length positions') as Hsame.
  { apply mapM_Some in Hm. apply Forall2_length in Hm. lia. }
  destruct (lookup_lt_is_Some_2 positions' k) as [a' Ha'].
  { apply lookup_lt_Some in Ha. lia. }
  destruct (lookup_lt_is_Some_2 positions' (S k)) as [b' Hb'].
  { apply lookup_lt_Some in Hb. lia. }
  destruct (Hinr k a' b' Ha' Hb') as (bubble0 & Hk0 & Hk1).
  simpl in Hk0, Hk1. rewrite Hk in Hk0. injection Hk0 as <-.
  eexists. split; [exact Hk1|]. by rewrite lookup_insert_ne.
Qed.

Lemma slice_reversed {A : Type} (l : list A) (a b : nat) :
  (b ≤ a)%nat → slice l a b = [].
Proof. intros H. unfold slice. apply drop_ge. rewrite length_take. lia. Qed.

Lemma head_slice {A : Type} (l : list A) (a b : nat) :
  (a < b)%nat → head (slice l a b) = l !! a.
Proof.
  intros H. unfold slice.
  rewrite head_lookup, lookup_drop, Nat.add_0_r.
  by apply lookup_take_lt.
Qed.

Lemma last_slice {A : Type} (l : list A) (a b : nat) :
  (a ≤ b)%nat → (b < length l)%nat → last (slice l a (b + 1)) = l !! b.
Proof.
  intros Hab Hb. unfold slice.
  rewrite last_lookup, lookup_drop.
  assert ((a + pred (length (drop a (take (b + 1) l))))%nat = b) as ->
    by (rewrite length_drop, length_take; lia).
  apply lookup_take_lt. lia.
Qed.

Lemma sliced_replicate gfa_graph bubbles_endpoints (n : nat) :
  sliced gfa_graph bubbles_endpoints (replicate n ∅).
Proof.
  intros k bubble path_name chain Hk Hchain.
  apply lookup_replicate in Hk as [-> _]. by rewrite lookup_empty in Hchain.
Qed.

Lemma extract_sliced gfa_graph bubbles_endpoints names :
  anchored gfa_graph bubbles_endpoints →
  (∀ p, p ∈ names → p ∈ keys (paths gfa_graph)) →
  ∀ oriented oriented',
    length oriented = (length bubbles_endpoints - 1)%nat →
    sliced gfa_graph bubbles_endpoints oriented →
    extract gfa_graph names bubbles_endpoints oriented = Ok oriented' →
    sliced gfa_graph bubbles_endpoints oriented'.
Proof.
  intros Hanch.
  induction names as [|p' names IH];
    intros Hkeys oriented oriented' Hlen Hsl Hrun.
  { simpl in Hrun. by injection Hrun as <-. }
  destruct (anchored_nodes gfa_graph bubbles_endpoints p' Hanch)
    as (nodes & Hnodes & Hin); [apply Hkeys; left|].
  pose proof Hnodes as Hpath. rewrite dict_get_all_sets in Hpath.
  destruct (dict_get (paths gfa_graph) p') as [path'|] eqn:Hpath'; [|done].
  simpl in Hpath. injection Hpath as <-.
  destruct (positions_exist _ _ Hin) as [positions' Hpos'].
  pose proof (Forall2_length _ _ _ Hpos') as Hlenpos.
  destruct (assign_chains_spec (oriented_chain gfa_graph p')
              (fun s e => slice path' s (e + 1)) p')
    with (positions := positions') (k := 0%nat) (bubbles := oriented)
    as (oriented1 & Hassign & Hlen1 & Hout & Hinr).
  { intros s e. unfold oriented_chain, all_maps. by rewrite Hpath'. }
  { rewrite length_consecutive. lia. }
  simpl in Hrun.
  rewrite (endpoints_indexes_ok _ _ _ _ _ Hnodes Hpos') in Hrun.
  simpl in Hrun. rewrite Hassign in Hrun. simpl in Hrun.
  apply (IH (fun q Hq => Hkeys q (list_elem_of_further _ _ _ Hq))
           oriented1 oriented'); [lia| |done].
  intros k bubble1 p chain Hk Hchain.
  pose proof (lookup_lt_Some _ _ _ Hk) as Hklt.
  destruct (lookup_lt_is_Some_2 positions' k) as [a' Ha']; [lia|].
  destruct (lookup_lt_is_Some_2 positions' (S k)) as [b' Hb']; [lia|].
  destruct (Hinr k a' b' Ha' Hb') as (bubble & Hk0 & Hk1).
  simpl in Hk0, Hk1. rewrite Hk in Hk1. injection Hk1 as ->.
  destruct (decide (p = p')) as [->|Hne].
  - rewrite lookup_insert_eq in Hchain. injection Hchain as <-.
    exists path', positions', a', b'. split; [done|].
    split; [by apply mapM_Some|]. done.
  - rewrite lookup_insert_ne in Hchain by done.
    by apply (Hsl k bubble).
Qed.

Section WithInt.

Variable int : string → option Z.

Lemma sorted_key_int_elem_of (l r : list string) :
  sorted_key_int int l = Ok r → ∀ x, x ∈ r → x ∈ l.
Proof.
  unfold sorted_key_int.
  destruct (mapM _ l) as [keyed|] eqn:Hkeyed; [|done].
  simpl. intros [= <-] x Hx.
  apply list_elem_of_fmap in Hx as ([k y] & -> & Hy).
  apply elem_of_sorted_by in Hy. simpl.
  apply mapM_Some in Hkeyed.
  apply list_elem_of_lookup in Hy as [n Hn].
  destruct (Forall2_lookup_r _ _ _ _ _ Hkeyed Hn) as (x & Hx & Hint).
  destruct (int x); [|done]. simpl in Hint. injection Hint as _ ->.
  by eapply list_elem_of_lookup_2.
Qed.

Lemma initial_endpoints_anchored gfa_graph bubbles_endpoints :
  initial_endpoints int gfa_graph = Ok bubbles_endpoints →
  anchored gfa_graph bubbles_endpoints.
Proof.
  unfold initial_endpoints, common_members.
  destruct (_ <$> all_sets gfa_graph) as [|first others] eqn:Hsets;
    [done|].
  simpl. intros Hsorted item Hitem x Hx.
  apply (sorted_key_int_elem_of _ _ Hsorted) in Hx.
  apply elem_of_sorted_by, elem_of_elements in Hx.
  apply foldl_intersection in Hx as [Hfirst Hothers].
  assert (x ∈ (list_to_set (item.2.*1) : gset string)) as Hset.
  { assert ((list_to_set (item.2.*1) : gset string) ∈ first :: others)
      as Hmem.
    { rewrite <- Hsets. unfold all_sets. rewrite <- list_fmap_compose.
      apply list_elem_of_fmap. exists item. by split. }
    apply elem_of_cons in Hmem as [->|Hmem]; [done|by apply Hothers]. }
  by apply elem_of_list_to_set in Hset.
Qed.

Lemma final_endpoints_spec gfa_graph initial :
  initial_endpoints int gfa_graph = Ok initial →
  ∃ final,
    fixed_point (length initial) gfa_graph initial 0 = Ok final ∧
    final `sublist_of` initial ∧
    final_endpoints int gfa_graph = Ok final.
Proof.
  intros Hinit.
  pose proof (initial_endpoints_anchored _ _ Hinit) as Hanch.
  destruct (fixed_point_spec gfa_graph (length initial) initial 0 Hanch)
    as (final & Hrun & Hsub).
  { destruct initial; [by right|left]. split; [done|done]. }
  exists final. split; [done|]. split; [done|].
  unfold final_endpoints. rewrite Hinit. simpl. exact Hrun.
Qed.

Lemma final_endpoints_anchored gfa_graph bubbles_endpoints :
  final_endpoints int gfa_graph = Ok bubbles_endpoints →
  anchored gfa_graph bubbles_endpoints.
Proof.
  unfold final_endpoints.
  destruct (initial_endpoints int gfa_graph) as [initial| |] eqn:Hinit;
    [|done|done].
  simpl. intros Hrun.
  destruct (final_endpoints_spec gfa_graph initial Hinit)
    as (final & Hfinal & Hsub & _).
  rewrite Hfinal in Hrun. injection Hrun as <-.
  eapply anchored_sublist; [|done].
  by eapply initial_endpoints_anchored.
Qed.

Lemma bubble_caller_spec gfa_graph bubbles_endpoints :
  final_endpoints int gfa_graph = Ok bubbles_endpoints →
  ∃ bubbles,
    bubble_caller int gfa_graph = Ok bubbles ∧
    length bubbles = (length bubbles_endpoints - 1)%nat ∧
    ∀ p, p ∈ keys (paths gfa_graph) →
         stored gfa_graph bubbles_endpoints p bubbles.
Proof.
  intros Hfinal.
  pose proof (final_endpoints_anchored _ _ Hfinal) as Hanch.
  destruct (extract_spec gfa_graph bubbles_endpoints
              (keys (paths gfa_graph)) Hanch (fun p Hp => Hp)
              (replicate (length bubbles_endpoints - 1) ∅))
    as (bubbles & Hrun & Hlen & Hstored).
  { rewrite length_replicate. lia. }
  exists bubbles. split.
  { unfold bubble_caller. rewrite Hfinal. simpl. exact Hrun. }
  rewrite length_replicate in Hlen. split; [done|].
  intros p Hp. apply Hstored. by left.
Qed.

Lemma positions_valid {B : Type} (path : list (string * B))
    (bubbles_endpoints : list string) (positions : list nat) :
  mapM (index (path.*1)) bubbles_endpoints = Some positions →
  Forall (fun k => (k < length path)%nat) positions.
Proof.
  intros Hm. apply mapM_Some in Hm. apply Forall_lookup. intros n k Hn.
  destruct (Forall2_lookup_r _ _ _ _ _ Hm Hn) as (e & _ & Hk).
  apply index_Some in Hk as [Hk _]. apply lookup_lt_Some in Hk.
  by rewrite length_fmap in Hk.
Qed.

(** C7: every iteration of the loop returns the endpoints it was given
    without those of a set of embedded nodes, a sublist that is not longer;
    and the loop, started from the initial endpoints, ends within as many
    iterations as there are initial endpoints. *)
Theorem endpoints_decrease_and_loop_ends gfa_graph initial :
  initial_endpoints int gfa_graph = Ok initial →
  (∀ bubbles_endpoints,
     bubbles_endpoints `sublist_of` initial →
     ∃ bubbles_endpoints' (embedded : gset string),
       iteration gfa_graph bubbles_endpoints = Ok bubbles_endpoints' ∧
       bubbles_endpoints'
         = filter (fun e => e ∉ embedded) bubbles_endpoints ∧
       bubbles_endpoints' `sublist_of` bubbles_endpoints ∧
       (length bubbles_endpoints' ≤ length bubbles_endpoints)%nat) ∧
  ∃ final,
    fixed_point (length initial) gfa_graph initial 0 = Ok final ∧
    final `sublist_of` initial ∧
    final_endpoints int gfa_graph = Ok final.
Proof.
  intros Hinit.
  pose proof (initial_endpoints_anchored _ _ Hinit) as Hanch. split.
  - intros eps Hsub.
    destruct (iteration_spec gfa_graph eps) as (eps' & Hrun & [E HE] & _).
    { by eapply anchored_sublist. }
    exists eps', E. split; [done|]. split; [done|].
    rewrite HE. split; [apply sublist_filter|apply length_filter].
  - by apply final_endpoints_spec.
Qed.

(** C6, as the code has it: the chain of a path in the bubble of rank [k]
    is the part of the path from its first occurrence of the endpoint of
    rank [k] to its first occurrence of the endpoint of rank [k + 1], both
    included.  So, on a path that meets the endpoints at growing positions,
    each chain starts with the node that ends the chain before it, and the
    chains put end to end without that repeated node are the part of the
    path from the first endpoint to the last one. *)
Theorem chains_cover_between_endpoints gfa_graph bubbles_endpoints :
  final_endpoints int gfa_graph = Ok bubbles_endpoints →
  ∃ bubbles,
    bubble_caller int gfa_graph = Ok bubbles ∧
    length bubbles = (length bubbles_endpoints - 1)%nat ∧
    ∀ path_name path positions,
      dict_get (paths gfa_graph) path_name = Some path →
      mapM (index (path.*1)) bubbles_endpoints = Some positions →
      (∀ k a b,
         positions !! k = Some a → positions !! S k = Some b →
         ∃ bubble, bubbles !! k = Some bubble ∧
                   bubble !! path_name = Some (slice path a (b + 1))) ∧
      (∀ first last_,
         increasing positions →
         head positions = Some first →
         last positions = Some last_ →
         (1 < length positions)%nat →
         stitch (chains_of path_name bubbles)
           = slice path first (last_ + 1)).
Proof.
  intros Hfinal.
  destruct (bubble_caller_spec _ _ Hfinal) as (bubbles & Hrun & Hlen & Hst).
  exists bubbles. split; [done|]. split; [done|].
  intros path_name path positions Hpath Hm.
  assert (stored gfa_graph bubbles_endpoints path_name bubbles) as Hstored.
  { apply Hst. apply dict_get_keys. eauto. }
  split; [by apply Hstored|].
  intros first last_ Hinc Hfirst Hlast Hlenpos.
  rewrite (chains_of_stored _ _ _ _ _ _ Hstored Hpath Hm Hlen).
  apply stitch_chain_slices; try done.
  by eapply positions_valid.
Qed.

Lemma zero_sized_raises gfa_graph bubbles :
  bubble_caller int gfa_graph = Ok bubbles →
  (∃ bubble path_name,
     bubble ∈ bubbles ∧ bubble !! path_name = Some []) →
  linearize_bubbles int gfa_graph = Raise ValueError.
Proof.
  intros Hrun (bubble & path_name & Hbubble & Hchain).
  unfold linearize_bubbles. rewrite Hrun. simpl.
  assert (zero_sized bubbles = true) as ->; [|done].
  unfold zero_sized. apply existsb_exists.
  exists bubble. split; [by apply list_elem_of_In|].
  apply existsb_exists. exists (path_name, []). split.
  - apply list_elem_of_In. by apply elem_of_map_to_list.
  - reflexivity.
Qed.

Lemma sorted_key_int_perm (l r : list string) :
  sorted_key_int int l = Ok r → r ≡ₚ l.
Proof.
  unfold sorted_key_int.
  destruct (mapM _ l) as [keyed|] eqn:Hkeyed; [|done].
  simpl. intros [= <-]. rewrite sorted_by_perm.
  apply mapM_Some in Hkeyed.
  induction Hkeyed as [|x y l keyed Hxy _ IH]; [done|].
  destruct (int x); [|done]. simpl in Hxy. injection Hxy as <-.
  simpl. by rewrite IH.
Qed.

Lemma initial_endpoints_NoDup gfa_graph bubbles_endpoints :
  initial_endpoints int gfa_graph = Ok bubbles_endpoints →
  NoDup bubbles_endpoints.
Proof.
  unfold initial_endpoints, common_members.
  destruct (_ <$> all_sets gfa_graph) as [|first others]; [done|].
  simpl. intros Hsorted.
  rewrite (sorted_key_int_perm _ _ Hsorted), sorted_by_perm.
  apply NoDup_elements.
Qed.

Lemma final_endpoints_NoDup gfa_graph bubbles_endpoints :
  final_endpoints int gfa_graph = Ok bubbles_endpoints →
  NoDup bubbles_endpoints.
Proof.
  unfold final_endpoints.
  destruct (initial_endpoints int gfa_graph) as [initial| |] eqn:Hinit;
    [|done|done].
  simpl. intros Hrun.
  destruct (final_endpoints_spec gfa_graph initial Hinit)
    as (final & Hfinal & Hsub & _).
  rewrite Hfinal in Hrun. injection Hrun as <-.
  eapply sublist_NoDup; [|exact Hsub]. by eapply initial_endpoints_NoDup.
Qed.

Lemma bubble_caller_sliced gfa_graph bubbles_endpoints bubbles :
  final_endpoints int gfa_graph = Ok bubbles_endpoints →
  bubble_caller int gfa_graph = Ok bubbles →
  sliced gfa_graph bubbles_endpoints bubbles.
Proof.
  intros Hfinal Hrun.
  pose proof (final_endpoints_anchored _ _ Hfinal) as Hanch.
  unfold bubble_caller in Hrun. rewrite Hfinal in Hrun. simpl in Hrun.
  eapply (extract_sliced gfa_graph bubbles_endpoints
            (keys (paths gfa_graph)) Hanch (fun p Hp => Hp));
    [|apply sliced_replicate|exact Hrun].
  apply length_replicate.
Qed.


End WithInt.

(** The witnesses and the inputs on which the claims fail *)

Lemma endpoints_decrease_and_loop_ends_witness :
  ∃ final,
    final_endpoints Examples.decimal Examples.straight = Ok final ∧
    final `sublist_of` ["1"; "2"; "3"].
Proof.
  destruct (endpoints_decrease_and_loop_ends Examples.decimal
              Examples.straight ["1"; "2"; "3"])
    as [_ (final & _ & Hsub & Hfinal)].
  - vm_compute. reflexivity.
  - exists final. by split.
Defined.

Lemma chains_cover_between_endpoints_witness :
  ∃ bubbles,
    bubble_caller Examples.decimal Examples.straight = Ok bubbles ∧
    stitch (chains_of "h1" bubbles)
      = [("1", Forward); ("2", Forward); ("3", Forward)].
Proof.
  destruct (chains_cover_between_endpoints Examples.decimal
              Examples.straight ["1"; "2"; "3"])
    as (bubbles & Hrun & _ & Hchains).
  - vm_compute. reflexivity.
  - exists bubbles. split; [done|].
    destruct (Hchains "h1"
                [("1", Forward); ("2", Forward); ("3", Forward)]
                [0; 1; 2]%nat) as [_ Hstitch].
    + reflexivity.
    + vm_compute. reflexivity.
    + rewrite (Hstitch 0%nat 2%nat); [reflexivity| |reflexivity|reflexivity|].
      * intros [|[|[|k]]] a b Ha Hb; simpl in Ha, Hb; simplify_eq; lia.
      * simpl. lia.
Defined.

(** C6, as the claim has it, does not hold: on the path 1, 2, 3 the two
    chains are 1, 2 and 2, 3, and their concatenation repeats node 2. *)
Lemma chains_repeat_endpoints :
  bubble_caller Examples.decimal Examples.straight
    = Ok [ {["h1" := [("1", Forward); ("2", Forward)]]};
           {["h1" := [("2", Forward); ("3", Forward)]]} ] ∧
  dict_get (paths Examples.straight) "h1"
    = Some [("1", Forward); ("2", Forward); ("3", Forward)] ∧
  concat (chains_of "h1"
            [ {["h1" := [("1", Forward); ("2", Forward)]]};
              {["h1" := [("2", Forward); ("3", Forward)]]} ])
    ≠ [("1", Forward); ("2", Forward); ("3", Forward)].
Proof.
  split; [vm_compute; reflexivity|].
  split; [reflexivity|].
  vm_compute. discriminate.
Qed.


End BubbleFacts.

(** * The breakpoints of two segmentations *)

Section Breakpoints.

Import EditDistance.

Lemma total_length_app (l l' : list Z) :
  total_length (l ++ l') = total_length l + total_length l'.
Proof.
  unfold total_length. induction l as [|x l IH]; simpl; [done|].
  rewrite IH. lia.
Qed.

Lemma boundaries_from_snoc (lens : list Z) :
  ∀ pos len,
    boundaries_from pos (lens ++ [len])
    = boundaries_from pos lens ++ [pos + total_length lens + len].
Proof.
  induction lens as [|x lens IH]; intros pos len; simpl.
  - f_equal. unfold total_length. simpl. f_equal. lia.
  - rewrite IH. do 3 f_equal. unfold total_length. simpl. lia.
Qed.

Lemma boundaries_take_S (lens : list Z) (k : nat) (len : Z) :
  lens !! k = Some len →
  boundaries (take (S k) lens)
  = boundaries (take k lens) ++ [total_length (take k lens) + len].
Proof.
  intros Hk. rewrite (take_S_r _ _ _ Hk). unfold boundaries.
  rewrite boundaries_from_snoc. do 2 f_equal.
Qed.

Lemma total_length_take_S (lens : list Z) (k : nat) (len : Z) :
  lens !! k = Some len →
  total_length (take (S k) lens) = total_length (take k lens) + len.
Proof.
  intros Hk. rewrite (take_S_r _ _ _ Hk), total_length_app.
  unfold total_length. simpl. lia.
Qed.

Lemma elem_of_boundaries (lens : list Z) (z : Z) :
  z ∈ boundaries lens ↔
  ∃ k, (k < length lens)%nat ∧ z = total_length (take (S k) lens).
Proof.
  induction lens as [|x lens IH] using rev_ind.
  - split; [by intros H%elem_of_nil|]. intros (k & Hk & _). simpl in Hk. lia.
  - unfold boundaries in *. rewrite boundaries_from_snoc, elem_of_app, IH.
    rewrite list_elem_of_singleton, length_app. simpl. split.
    + intros [[k [Hk ->]] | ->].
      * exists k. split; [lia|]. by rewrite take_app_le by lia.
      * exists (length lens). split; [lia|].
        rewrite take_ge by (rewrite length_app; simpl; lia).
        rewrite total_length_app. unfold total_length. simpl. lia.
    + intros (k & Hk & ->).
      destruct (decide (k < length lens)%nat) as [Hlt|Hge].
      * left. exists k. split; [done|]. by rewrite take_app_le by lia.
      * right. rewrite take_ge by (rewrite length_app; simpl; lia).
        rewrite total_length_app. unfold total_length. simpl. lia.
Qed.

(** With positive lengths, the position grows with the number of
    segments. *)
Lemma total_length_take_mono (lens : list Z) :
  Forall (fun len => 0 < len) lens →
  ∀ k k', (k ≤ k')%nat →
          total_length (take k lens) ≤ total_length (take k' lens).
Proof.
  intros Hpos k k' Hle. induction Hle as [|k' Hle IH]; [lia|].
  destruct (lens !! k') as [len|] eqn:Hk'.
  - rewrite (total_length_take_S _ _ _ Hk').
    assert (0 < len); [|lia].
    rewrite Forall_forall in Hpos. apply Hpos.
    by eapply list_elem_of_lookup_2.
  - apply lookup_ge_None in Hk'.
    rewrite (take_ge lens (S k')) by lia.
    by rewrite (take_ge lens k') in IH by lia.
Qed.

Lemma total_length_take_all (lens : list Z) :
  total_length (take (length lens) lens) = total_length lens.
Proof. by rewrite firstn_all. Qed.

Lemma total_length_take_lt (lens : list Z) (k : nat) :
  positive lens → (k < length lens)%nat →
  total_length (take k lens) < total_length (take (S k) lens).
Proof.
  intros Hpos Hk. destruct (lookup_lt_is_Some_2 lens k Hk) as [len Hlen].
  rewrite (total_length_take_S _ _ _ Hlen).
  assert (0 < len); [|lia].
  unfold positive in Hpos. rewrite Forall_forall in Hpos. apply Hpos.
  by eapply list_elem_of_lookup_2.
Qed.

(** A position strictly between two neighbouring boundaries is no
    boundary. *)
Lemma between_boundaries (lens : list Z) (k : nat) (z : Z) :
  positive lens →
  total_length (take k lens) < z →
  ((k < length lens)%nat → z < total_length (take (S k) lens)) →
  ((length lens ≤ k)%nat → False) →
  z ∉ boundaries lens.
Proof.
  intros Hpos Hlow Hhigh Hk [n [Hn ->]]%elem_of_boundaries.
  destruct (decide (n < k)%nat) as [Hlt|Hge].
  - pose proof (total_length_take_mono lens Hpos (S n) k). lia.
  - assert (k < length lens)%nat as Hklt by lia.
    pose proof (total_length_take_mono lens Hpos (S k) (S n)). lia.
Qed.

Lemma own_boundaries_shared (lens lens' : list Z) (k : nat) (len : Z) :
  lens !! k = Some len →
  total_length (take k lens) + len ∈ boundaries lens' →
  own_boundaries (take (S k) lens) lens' = own_boundaries (take k lens) lens'.
Proof.
  intros Hk Hin. unfold own_boundaries.
  rewrite (boundaries_take_S _ _ _ Hk). apply set_eq. intros z.
  rewrite !elem_of_difference, !elem_of_list_to_set, elem_of_app.
  rewrite list_elem_of_singleton. split; [|tauto].
  intros [[Hz| ->] Hnot]; [done|]. by destruct Hnot.
Qed.

Lemma own_boundaries_own (lens lens' : list Z) (k : nat) (len : Z) :
  lens !! k = Some len →
  total_length (take k lens) + len ∉ boundaries lens' →
  own_boundaries (take (S k) lens) lens'
  = {[total_length (take k lens) + len]} ∪ own_boundaries (take k lens) lens'.
Proof.
  intros Hk Hout. unfold own_boundaries.
  rewrite (boundaries_take_S _ _ _ Hk). apply set_eq. intros z.
  rewrite elem_of_union, !elem_of_difference, !elem_of_list_to_set.
  rewrite elem_of_app, list_elem_of_singleton, elem_of_singleton.
  split.
  - intros [[Hz| ->] Hnot]; [right|left]; done.
  - intros [-> |[Hz Hnot]]; [|tauto]. split; [by right|done].
Qed.

Lemma own_boundaries_nil (lens' : list Z) : own_boundaries [] lens' = ∅.
Proof.
  apply set_eq. intros z. unfold own_boundaries, boundaries. simpl.
  rewrite elem_of_difference, elem_of_empty. tauto.
Qed.

Import EditDistance.

Lemma in_step_initial (lens_A lens_B : list Z) :
  positive lens_A → positive lens_B → in_step lens_A lens_B initial.
Proof.
  intros HA HB. unfold in_step. simpl.
  repeat split; try lia; try done.
  - intros Hj.
    pose proof (total_length_take_lt lens_B 0 HB Hj) as H. by simpl in H.
  - intros Hi.
    pose proof (total_length_take_lt lens_A 0 HA Hi) as H. by simpl in H.
  - symmetry. apply own_boundaries_nil.
  - symmetry. apply own_boundaries_nil.
Qed.

Lemma in_step_advance (lens_A lens_B : list Z) (st st' : State)
    (len_A len_B : Z) :
  positive lens_A → positive lens_B →
  lens_A !! i st = Some len_A → lens_B !! j st = Some len_B →
  in_step lens_A lens_B st →
  advance len_A len_B st = Ok st' →
  in_step lens_A lens_B st'.
Proof.
  intros HA HB Hi Hj (Hir & Hjr & HpA & HpB & Hg & HoA & HoB & Hs & Hm).
  pose proof (lookup_lt_Some _ _ _ Hi) as Hilt.
  pose proof (lookup_lt_Some _ _ _ Hj) as Hjlt.
  pose proof (total_length_take_S _ _ _ Hi) as HeA.
  pose proof (total_length_take_S _ _ _ Hj) as HeB.
  specialize (HoA Hjlt). specialize (HoB Hilt).
  rewrite advance_cases. unfold in_step.
  repeat case_decide; intros [= <-]; simpl.
  - (* both boundaries *)
    repeat split; try lia.
    + intros Hlt. pose proof (total_length_take_lt lens_B _ HB Hlt). lia.
    + intros Hlt. pose proof (total_length_take_lt lens_A _ HA Hlt). lia.
    + rewrite Hs. symmetry. apply (own_boundaries_shared _ _ _ _ Hi).
      apply elem_of_boundaries. exists (j st). split; [done|]. lia.
    + rewrite Hm. symmetry. apply (own_boundaries_shared _ _ _ _ Hj).
      apply elem_of_boundaries. exists (i st). split; [done|]. lia.
  - (* the boundary of A alone *)
    repeat split; try lia; try done.
    + intros Hlt. pose proof (total_length_take_lt lens_A _ HA Hlt). lia.
    + rewrite Hs. replace (Z.min _ _) with (pos_A st + len_A) by lia.
      rewrite HpA. symmetry. apply (own_boundaries_own _ _ _ _ Hi).
      apply (between_boundaries lens_B (j st)); [done|lia|lia|lia].
  - (* the boundary of B alone *)
    repeat split; try lia; try done.
    + intros Hlt. pose proof (total_length_take_lt lens_B _ HB Hlt). lia.
    + rewrite Hm. replace (Z.min _ _) with (pos_B st + len_B) by lia.
      rewrite HpB. symmetry. apply (own_boundaries_own _ _ _ _ Hj).
      apply (between_boundaries lens_A (i st)); [done|lia|lia|lia].
Qed.

Lemma in_step_run (lens_A lens_B : list Z) (fuel : nat) :
  positive lens_A → positive lens_B →
  ∀ st st',
    in_step lens_A lens_B st →
    run fuel lens_A lens_B st = Ok st' →
    in_step lens_A lens_B st'.
Proof.
  intros HA HB. induction fuel as [|fuel IH]; intros st st' Hin; simpl.
  - destruct (lens_A !! i st), (lens_B !! j st); try done;
      by intros [= <-].
  - destruct (lens_A !! i st) as [a|] eqn:Hi; [|by intros [= <-]].
    destruct (lens_B !! j st) as [b|] eqn:Hj; [|by intros [= <-]].
    destruct (advance a b st) as [st1| |] eqn:Hadv; simpl; [|done|done].
    apply IH. by eapply in_step_advance.
Qed.

(** With equal total lengths the two cursors reach the end together. *)
Lemma in_step_end (lens_A lens_B : list Z) (st : State) :
  positive lens_A → positive lens_B →
  total_length lens_A = total_length lens_B →
  in_step lens_A lens_B st →
  (length lens_A ≤ i st)%nat ∨ (length lens_B ≤ j st)%nat →
  i st = length lens_A ∧ j st = length lens_B.
Proof.
  intros HA HB Htot (Hir & Hjr & HpA & HpB & Hg & HoA & HoB & _) Hend.
  destruct (decide (i st = length lens_A)) as [Hi|Hi];
    destruct (decide (j st = length lens_B)) as [Hj|Hj]; try lia.
  - exfalso. assert (j st < length lens_B)%nat as Hlt by lia.
    specialize (HoA Hlt). rewrite HpA, Hi, total_length_take_all in HoA.
    pose proof (total_length_take_mono lens_B HB (S (j st)) (length lens_B)).
    rewrite total_length_take_all in H. lia.
  - exfalso. assert (i st < length lens_A)%nat as Hlt by lia.
    specialize (HoB Hlt). rewrite HpB, Hj, total_length_take_all in HoB.
    pose proof (total_length_take_mono lens_A HA (S (i st)) (length lens_A)).
    rewrite total_length_take_all in H. lia.
Qed.

Lemma equal_totals_final graph_A graph_B path_name lens_A lens_B :
  segmentation graph_A path_name = Some lens_A →
  segmentation graph_B path_name = Some lens_B →
  positive lens_A → positive lens_B →
  total_length lens_A = total_length lens_B →
  ∃ st,
    while_loop (iterations graph_A graph_B path_name)
      graph_A graph_B path_name initial = Ok st ∧
    edit_single_path_path_level path_name graph_A graph_B
      = Ok (edition_of st) ∧
    in_step lens_A lens_B st ∧
    i st = length lens_A ∧ j st = length lens_B.
Proof.
  intros HsA HsB HA HB Htot.
  destruct (single_path_run _ _ _ _ _ HsA HsB) as (st & Hrun & Hend & He).
  pose proof (in_step_run _ _ _ HA HB _ _ (in_step_initial _ _ HA HB) Hrun)
    as Hin.
  exists st. split.
  { rewrite (iterations_segmentation _ _ _ _ _ HsA HsB).
    by rewrite (while_loop_run _ _ _ _ _ HsA HsB). }
  split; [done|]. split; [done|].
  by apply (in_step_end lens_A lens_B).
Qed.

(** On two segmentations of the same total length, with segments of
    positive length, the splits are the boundaries of A that B lacks and the
    merges are the boundaries of B that A lacks. *)
Theorem breakpoints_are_own_boundaries graph_A graph_B path_name
    lens_A lens_B :
  segmentation graph_A path_name = Some lens_A →
  segmentation graph_B path_name = Some lens_B →
  positive lens_A → positive lens_B →
  total_length lens_A = total_length lens_B →
  edit_single_path_path_level path_name graph_A graph_B
  = Ok (<["splits" := sorted_ints (own_boundaries lens_A lens_B)]>
          (<["merges" := sorted_ints (own_boundaries lens_B lens_A)]> ∅)).
Proof.
  intros HsA HsB HA HB Htot.
  destruct (equal_totals_final _ _ _ _ _ HsA HsB HA HB Htot)
    as (st & _ & -> & Hin & Hi & Hj).
  destruct Hin as (_ & _ & _ & _ & _ & _ & _ & Hs & Hm).
  unfold edition_of. rewrite Hs, Hm, Hi, Hj, !firstn_all. reflexivity.
Qed.

Lemma breakpoints_are_own_boundaries_witness :
  edit_single_path_path_level "chr1" Examples.scenario2_A Examples.scenario2_B
  = Ok (<["splits" := sorted_ints (own_boundaries [5; 5] [3; 7])]>
          (<["merges" := sorted_ints (own_boundaries [3; 7] [5; 5])]> ∅)).
Proof.
  apply (breakpoints_are_own_boundaries Examples.scenario2_A
           Examples.scenario2_B "chr1" [5; 5] [3; 7]).
  - vm_compute. reflexivity.
  - vm_compute. reflexivity.
  - repeat constructor.
  - repeat constructor.
  - reflexivity.
Defined.

(** Under the same hypotheses the loop ends with both cursors at the end of
    their path and the three positions at the total length. *)
Theorem cursors_end_together graph_A graph_B path_name lens_A lens_B :
  segmentation graph_A path_name = Some lens_A →
  segmentation graph_B path_name = Some lens_B →
  positive lens_A → positive lens_B →
  total_length lens_A = total_length lens_B →
  ∃ st,
    while_loop (iterations graph_A graph_B path_name)
      graph_A graph_B path_name initial = Ok st ∧
    i st = length lens_A ∧ j st = length lens_B ∧
    pos_A st = total_length lens_A ∧
    pos_B st = total_length lens_A ∧
    global_pos st = total_length lens_A.
Proof.
  intros HsA HsB HA HB Htot.
  destruct (equal_totals_final _ _ _ _ _ HsA HsB HA HB Htot)
    as (st & Hrun & _ & Hin & Hi & Hj).
  destruct Hin as (_ & _ & HpA & HpB & Hg & _).
  rewrite Hi, total_length_take_all in HpA.
  rewrite Hj, total_length_take_all in HpB.
  exists st. repeat split; try done; lia.
Qed.

Lemma cursors_end_together_witness :
  ∃ st,
    while_loop (iterations Examples.scenario2_A Examples.scenario2_B "chr1")
      Examples.scenario2_A Examples.scenario2_B "chr1" initial = Ok st ∧
    i st = 2%nat ∧ j st = 2%nat ∧
    pos_A st = 10 ∧ pos_B st = 10 ∧ global_pos st = 10.
Proof.
  apply (cursors_end_together Examples.scenario2_A Examples.scenario2_B
           "chr1" [5; 5] [3; 7]).
  - vm_compute. reflexivity.
  - vm_compute. reflexivity.
  - repeat constructor.
  - repeat constructor.
  - reflexivity.
Defined.

End Breakpoints.

(** * The lists of the result *)

Section SortedResult.

Import EditDistance.

Lemma insert_sorted_lt (x : Z) (l : list Z) :
  StronglySorted Z.lt l → x ∉ l →
  StronglySorted Z.lt (insert_sorted Z.leb x l).
Proof.
  induction 1 as [|y l Hl IH Hy]; intros Hx; simpl.
  - repeat constructor.
  - apply not_elem_of_cons in Hx as [Hxy Hx].
    destruct (Z.leb_spec x y) as [Hle|Hgt].
    + constructor; [by constructor|].
      constructor; [lia|].
      eapply Forall_impl; [exact Hy|]. intros z Hz. simpl in Hz. lia.
    + constructor; [by apply IH|].
      apply Forall_forall. intros z Hz.
      apply elem_of_insert_sorted in Hz as [->|Hz]; [lia|].
      rewrite Forall_forall in Hy. by apply Hy.
Qed.

Lemma sorted_by_lt (l : list Z) :
  NoDup l → StronglySorted Z.lt (sorted_by Z.leb l).
Proof.
  unfold sorted_by. induction 1 as [|x l Hx Hl IH]; simpl.
  - constructor.
  - apply insert_sorted_lt; [done|].
    fold (sorted_by Z.leb l). by rewrite elem_of_sorted_by.
Qed.

Lemma sorted_ints_spec (s : gset Z) :
  StronglySorted Z.lt (sorted_ints s) ∧ ∀ z, z ∈ sorted_ints s ↔ z ∈ s.
Proof.
  unfold sorted_ints. split.
  - apply sorted_by_lt, NoDup_elements.
  - intros z. by rewrite elem_of_sorted_by, elem_of_elements.
Qed.

(** The two lists of a returned edition are strictly increasing: sorted,
    and without duplicates. *)
Theorem edition_lists_increasing path_name graph_A graph_B e :
  edit_single_path_path_level path_name graph_A graph_B = Ok e →
  ∃ merges_list splits_list,
    e = <["splits" := splits_list]> (<["merges" := merges_list]> ∅) ∧
    StronglySorted Z.lt merges_list ∧ StronglySorted Z.lt splits_list.
Proof.
  unfold edit_single_path_path_level.
  destruct (while_loop _ _ _ _ _) as [st| |]; simpl; [|done|done].
  intros [= <-].
  exists (sorted_ints (merges st)), (sorted_ints (splits st)).
  split; [done|]. split; apply sorted_ints_spec.
Qed.

Lemma edition_lists_increasing_witness :
  ∃ merges_list splits_list,
    <["splits" := [5]]> (<["merges" := [3; 7]]> (∅ : gmap string (list Z)))
    = <["splits" := splits_list]> (<["merges" := merges_list]> ∅) ∧
    StronglySorted Z.lt merges_list ∧ StronglySorted Z.lt splits_list.
Proof.
  apply (edition_lists_increasing "chr1" Examples.scenario2_A
           Examples.short_B).
  vm_compute. reflexivity.
Defined.

Lemma for_paths_inv graph_A graph_B names :
  ∀ acc r,
    for_paths graph_A graph_B names acc = Ok r →
    ∀ p, p ∈ names →
         ∃ e, edit_single_path_path_level p graph_A graph_B = Ok e.
Proof.
  induction names as [|q names IH]; intros acc r Hrun p Hp.
  - by apply elem_of_nil in Hp.
  - rewrite for_paths_cons in Hrun.
    destruct (edit_single_path_path_level q graph_A graph_B) as [e| |] eqn:He;
      simpl in Hrun; [|done|done].
    apply elem_of_cons in Hp as [->|Hp]; [eauto|].
    by eapply IH.
Qed.

(** The path-level edition returns a result exactly when the edition of
    every selected path returns one; the result then has one entry per
    selected path and no other, and the entry of a path is its edition. *)
Theorem path_level_edition_all_or_nothing graph_A graph_B
    (selected_paths : gset string) :
  ((∃ r, path_level_edition graph_A graph_B selected_paths = Ok r) ↔
   (∀ p, p ∈ selected_paths →
         ∃ e, edit_single_path_path_level p graph_A graph_B = Ok e)) ∧
  (∀ r, path_level_edition graph_A graph_B selected_paths = Ok r →
        dom r = selected_paths ∧
        ∀ p e, r !! p = Some e →
               edit_single_path_path_level p graph_A graph_B = Ok e).
Proof.
  split.
  - split.
    + intros [r Hr] p Hp. unfold path_level_edition in Hr.
      eapply for_paths_inv; [exact Hr|]. by apply elem_of_elements.
    + intros Hall.
      destruct (path_level_edition_ok _ _ _ Hall) as (r & Hr & _). eauto.
  - intros r Hr.
    assert (∀ p, p ∈ selected_paths →
              ∃ e, edit_single_path_path_level p graph_A graph_B = Ok e)
      as Hall.
    { intros p Hp. unfold path_level_edition in Hr.
      eapply for_paths_inv; [exact Hr|]. by apply elem_of_elements. }
    destruct (path_level_edition_ok _ _ _ Hall) as (r' & Hr' & Hin & Hout).
    rewrite Hr in Hr'. injection Hr' as <-. split.
    + apply set_eq. intros p. rewrite elem_of_dom.
      destruct (decide (p ∈ selected_paths)) as [Hp|Hp].
      * destruct (Hall p Hp) as [e He]. rewrite (Hin p e Hp He). by split.
      * rewrite (Hout p Hp). split; [by intros [? ?]|done].
    + intros p e Hpe.
      destruct (decide (p ∈ selected_paths)) as [Hp|Hp].
      * destruct (Hall p Hp) as [e' He']. rewrite (Hin p e' Hp He') in Hpe.
        congruence.
      * rewrite (Hout p Hp) in Hpe. done.
Qed.

(** The co-traversal needs no more iterations than the two paths have
    nodes left, on every pair of graphs: started with that bound, the loop,
    the edition of a path and the edition of a set of paths all end. *)
Theorem co_traversal_terminates graph_A graph_B :
  (∀ path_name fuel st,
     (path_len graph_A path_name - i st
      + (path_len graph_B path_name - j st) ≤ fuel)%nat →
     while_loop fuel graph_A graph_B path_name st ≠ OutOfFuel) ∧
  (∀ path_name,
     edit_single_path_path_level path_name graph_A graph_B ≠ OutOfFuel) ∧
  (∀ selected_paths : gset string,
     path_level_edition graph_A graph_B selected_paths ≠ OutOfFuel).
Proof.
  split; [intros p fuel st; apply while_loop_fuel|].
  split; [intros p; apply edit_single_path_path_level_total|].
  intros selected_paths. unfold path_level_edition.
  generalize (∅ : gmap string (gmap string (list Z))).
  induction (elements selected_paths) as [|p names IH]; intros acc.
  - done.
  - rewrite for_paths_cons.
    pose proof (edit_single_path_path_level_total p graph_A graph_B) as Hp.
    destruct (edit_single_path_path_level p graph_A graph_B); simpl;
      [apply IH|done|done].
Qed.

Lemma while_loop_cond_raise graph_A graph_B path_name st fuel e :
  loop_cond graph_A graph_B path_name st = Raise e →
  while_loop fuel graph_A graph_B path_name st = Raise e.
Proof. intros H. destruct fuel; simpl; by rewrite H. Qed.

Lemma while_loop_cond_false graph_A graph_B path_name st fuel :
  loop_cond graph_A graph_B path_name st = Ok false →
  while_loop fuel graph_A graph_B path_name st = Ok st.
Proof. intros H. destruct fuel; simpl; by rewrite H. Qed.


End SortedResult.

(** * Segmentations of different total lengths *)

Section ShorterTotal.

Import EditDistance.

Lemma total_length_take_le (lens : list Z) (k : nat) :
  positive lens → total_length (take k lens) ≤ total_length lens.
Proof.
  intros Hpos. destruct (decide (k ≤ length lens)%nat) as [Hk|Hk].
  - rewrite <- (total_length_take_all lens).
    by apply total_length_take_mono.
  - rewrite take_ge by lia. lia.
Qed.

Lemma bounded_initial (lens_A lens_B : list Z) :
  positive lens_A → positive lens_B → bounded lens_A lens_B initial.
Proof.
  intros HA HB. split; simpl.
  - apply (total_length_take_le lens_B 0 HB).
  - apply (total_length_take_le lens_A 0 HA).
Qed.

Lemma bounded_advance (lens_A lens_B : list Z) (st st' : State)
    (len_A len_B : Z) :
  positive lens_A → positive lens_B →
  lens_A !! i st = Some len_A → lens_B !! j st = Some len_B →
  in_step lens_A lens_B st →
  advance len_A len_B st = Ok st' →
  bounded lens_A lens_B st'.
Proof.
  intros HA HB Hi Hj (Hir & Hjr & HpA & HpB & Hg & HoA & HoB & Hs & Hm).
  pose proof (lookup_lt_Some _ _ _ Hi) as Hilt.
  pose proof (lookup_lt_Some _ _ _ Hj) as Hjlt.
  pose proof (total_length_take_S _ _ _ Hi) as HeA.
  pose proof (total_length_take_S _ _ _ Hj) as HeB.
  pose proof (total_length_take_le lens_A (S (i st)) HA) as HtA.
  pose proof (total_length_take_le lens_B (S (j st)) HB) as HtB.
  specialize (HoA Hjlt). specialize (HoB Hilt).
  rewrite advance_cases. unfold bounded.
  repeat case_decide; intros [= <-]; simpl; lia.
Qed.

Lemma bounded_run (lens_A lens_B : list Z) (fuel : nat) :
  positive lens_A → positive lens_B →
  ∀ st st',
    in_step lens_A lens_B st → bounded lens_A lens_B st →
    run fuel lens_A lens_B st = Ok st' →
    bounded lens_A lens_B st'.
Proof.
  intros HA HB. induction fuel as [|fuel IH]; intros st st' Hin Hb; simpl.
  - destruct (lens_A !! i st), (lens_B !! j st); try done;
      by intros [= <-].
  - destruct (lens_A !! i st) as [a|] eqn:Hi; [|by intros [= <-]].
    destruct (lens_B !! j st) as [b|] eqn:Hj; [|by intros [= <-]].
    destruct (advance a b st) as [st1| |] eqn:Hadv; simpl; [|done|done].
    apply IH.
    + by eapply in_step_advance.
    + by eapply bounded_advance.
Qed.

Lemma elem_of_boundaries_take (lens : list Z) (n : nat) (z : Z) :
  z ∈ boundaries (take n lens) ↔
  ∃ k, (k < n)%nat ∧ (k < length lens)%nat ∧
       z = total_length (take (S k) lens).
Proof.
  rewrite elem_of_boundaries, length_take. split.
  - intros (k & Hk & ->). exists k. split; [lia|]. split; [lia|].
    rewrite take_take. f_equal. f_equal. lia.
  - intros (k & Hkn & Hk & ->). exists k. split; [lia|].
    rewrite take_take. f_equal. f_equal. lia.
Qed.

(** The boundaries met before the co-traversal stops are those that lie
    within the other segmentation. *)
Lemma own_boundaries_stop (lens lens' : list Z) (n m : nat) :
  positive lens → positive lens' →
  (n ≤ length lens)%nat → (m ≤ length lens')%nat →
  total_length (take n lens) ≤ total_length lens' →
  ((n < length lens)%nat →
   total_length (take m lens') < total_length (take (S n) lens)) →
  (length lens ≤ n)%nat ∨ (length lens' ≤ m)%nat →
  own_boundaries (take n lens) lens'
  = own_boundaries_upto (total_length lens') lens lens'.
Proof.
  intros Hpos Hpos' Hn Hm Hle Hov Hend. apply set_eq. intros z.
  unfold own_boundaries_upto, own_boundaries.
  rewrite elem_of_filter, !elem_of_difference, !elem_of_list_to_set.
  rewrite elem_of_boundaries_take, (elem_of_boundaries lens). split.
  - intros [(k & Hkn & Hk & ->) Hnot]. split; [|split; [eauto|done]].
    pose proof (total_length_take_mono lens Hpos (S k) n). lia.
  - intros [Hz [(k & Hk & ->) Hnot]]. split; [|done].
    exists k. split; [|done].
    destruct (decide (k < n)%nat) as [Hlt|Hge]; [done|]. exfalso.
    assert (n < length lens)%nat as Hnlt by lia.
    specialize (Hov Hnlt).
    pose proof (total_length_take_mono lens Hpos (S n) (S k)).
    destruct Hend as [Hend|Hend]; [lia|].
    rewrite (take_ge lens' m) in Hov by lia. lia.
Qed.

(** Whatever the two total lengths, on segments of positive length the
    splits are the boundaries of A that B lacks and that lie within B, and
    the merges are the boundaries of B that A lacks and that lie within A. *)
Theorem breakpoints_within_other graph_A graph_B path_name lens_A lens_B :
  segmentation graph_A path_name = Some lens_A →
  segmentation graph_B path_name = Some lens_B →
  positive lens_A → positive lens_B →
  edit_single_path_path_level path_name graph_A graph_B
  = Ok (<["splits" :=
            sorted_ints
              (own_boundaries_upto (total_length lens_B) lens_A lens_B)]>
          (<["merges" :=
               sorted_ints
                 (own_boundaries_upto (total_length lens_A) lens_B lens_A)]>
             ∅)).
Proof.
  intros HsA HsB HA HB.
  destruct (single_path_run _ _ _ _ _ HsA HsB) as (st & Hrun & Hend & ->).
  pose proof (in_step_run _ _ _ HA HB _ _ (in_step_initial _ _ HA HB) Hrun)
    as Hin.
  pose proof (bounded_run _ _ _ HA HB _ _ (in_step_initial _ _ HA HB)
                (bounded_initial _ _ HA HB) Hrun) as [HbA HbB].
  destruct Hin as (Hir & Hjr & HpA & HpB & Hg & HoA & HoB & Hs & Hm).
  unfold edition_of. rewrite Hs, Hm.
  rewrite (own_boundaries_stop lens_A lens_B (i st) (j st));
    try done; try lia.
  - rewrite (own_boundaries_stop lens_B lens_A (j st) (i st));
      try done; try lia.
Qed.

Lemma breakpoints_within_other_witness :
  edit_single_path_path_level "chr1" Examples.scenario2_A Examples.short_B
  = Ok (<["splits" :=
            sorted_ints (own_boundaries_upto (total_length [3; 4])
                           [5; 5] [3; 4])]>
          (<["merges" :=
               sorted_ints (own_boundaries_upto (total_length [5; 5])
                              [3; 4] [5; 5])]> ∅)).
Proof.
  apply (breakpoints_within_other Examples.scenario2_A Examples.short_B
           "chr1" [5; 5] [3; 4]).
  - vm_compute. reflexivity.
  - vm_compute. reflexivity.
  - repeat constructor.
  - repeat constructor.
Defined.

End ShorterTotal.

(** * The edition as a change of boundaries *)

Section RoundTrip.

Import EditDistance.

Lemma list_to_set_sorted_ints (s : gset Z) : list_to_set (sorted_ints s) = s.
Proof.
  apply set_eq. intros z. rewrite elem_of_list_to_set.
  apply sorted_ints_spec.
Qed.

Lemma sorted_ints_nil (s : gset Z) : sorted_ints s = [] → s = ∅.
Proof.
  intros H. rewrite <- (list_to_set_sorted_ints s), H. reflexivity.
Qed.

Lemma boundaries_from_gt (lens : list Z) :
  positive lens → ∀ pos, Forall (fun z => pos < z) (boundaries_from pos lens).
Proof.
  induction 1 as [|len lens Hlen Hpos IH]; intros pos; simpl.
  - constructor.
  - constructor; [lia|].
    eapply Forall_impl; [apply IH|]. intros z Hz. simpl in Hz. lia.
Qed.

Lemma boundaries_from_sorted (lens : list Z) :
  positive lens → ∀ pos, StronglySorted Z.lt (boundaries_from pos lens).
Proof.
  induction 1 as [|len lens Hlen Hpos IH]; intros pos; simpl.
  - constructor.
  - constructor; [apply IH|]. by apply boundaries_from_gt.
Qed.

Lemma boundaries_from_inj (lens lens' : list Z) :
  ∀ pos, boundaries_from pos lens = boundaries_from pos lens' → lens = lens'.
Proof.
  revert lens'. induction lens as [|len lens IH]; intros [|len' lens'] pos;
    simpl; try done.
  intros [= Hlen Hrest]. assert (len = len') as -> by lia.
  f_equal. by eapply IH.
Qed.

Lemma sorted_lt_ext (l l' : list Z) :
  StronglySorted Z.lt l → StronglySorted Z.lt l' →
  (∀ z, z ∈ l ↔ z ∈ l') → l = l'.
Proof.
  intros Hl. revert l'.
  induction Hl as [|x l Hl IH Hx]; intros l' Hl' Hext.
  - destruct l' as [|y l']; [done|].
    exfalso. eapply not_elem_of_nil. apply Hext. by left.
  - destruct Hl' as [|y l' Hl' Hy].
    { exfalso. eapply not_elem_of_nil. apply Hext. by left. }
    rewrite Forall_forall in Hx, Hy.
    assert (x = y) as ->.
    { assert (x ∈ y :: l') as [->|Hxl]%elem_of_cons
        by (apply Hext; by left); [done|].
      assert (y ∈ x :: l) as [->|Hyl]%elem_of_cons
        by (apply Hext; by left); [done|].
      specialize (Hx _ Hyl). specialize (Hy _ Hxl). lia. }
    f_equal. apply IH; [done|]. intros z. split.
    + intros Hz. assert (z ∈ y :: l') as [->|Hz']%elem_of_cons
        by (apply Hext; by right); [|done].
      specialize (Hx _ Hz). lia.
    + intros Hz. assert (z ∈ y :: l) as [->|Hz']%elem_of_cons
        by (apply Hext; by right); [|done].
      specialize (Hy _ Hz). lia.
Qed.

Lemma own_boundaries_same (lens : list Z) : own_boundaries lens lens = ∅.
Proof.
  apply set_eq. intros z. unfold own_boundaries.
  rewrite elem_of_difference, elem_of_empty. tauto.
Qed.

(** Applying the edition to the boundaries of A gives the boundaries of B:
    the splits are removed and the merges added; the other way round, it
    gives back the boundaries of A. *)
Theorem edition_turns_A_into_B graph_A graph_B path_name lens_A lens_B :
  segmentation graph_A path_name = Some lens_A →
  segmentation graph_B path_name = Some lens_B →
  positive lens_A → positive lens_B →
  total_length lens_A = total_length lens_B →
  ∃ merges_list splits_list,
    edit_single_path_path_level path_name graph_A graph_B
      = Ok (<["splits" := splits_list]> (<["merges" := merges_list]> ∅)) ∧
    (list_to_set (boundaries lens_A) ∖ list_to_set splits_list)
      ∪ list_to_set merges_list
      = (list_to_set (boundaries lens_B) : gset Z) ∧
    (list_to_set (boundaries lens_B) ∖ list_to_set merges_list)
      ∪ list_to_set splits_list
      = (list_to_set (boundaries lens_A) : gset Z).
Proof.
  intros HsA HsB HA HB Htot.
  destruct (equal_totals_final _ _ _ _ _ HsA HsB HA HB Htot)
    as (st & _ & He & Hin & Hi & Hj).
  destruct Hin as (_ & _ & _ & _ & _ & _ & _ & Hs & Hm).
  rewrite Hi, firstn_all in Hs. rewrite Hj, firstn_all in Hm.
  exists (sorted_ints (merges st)), (sorted_ints (splits st)).
  split; [exact He|].
  rewrite !list_to_set_sorted_ints, Hs, Hm. unfold own_boundaries.
  split; apply set_eq; intros z;
    rewrite elem_of_union, !elem_of_difference;
    destruct (decide (z ∈ (list_to_set (boundaries lens_A) : gset Z)));
    destruct (decide (z ∈ (list_to_set (boundaries lens_B) : gset Z)));
    tauto.
Qed.

Lemma edition_turns_A_into_B_witness :
  ∃ merges_list splits_list,
    edit_single_path_path_level "chr1" Examples.scenario2_A
      Examples.scenario2_B
      = Ok (<["splits" := splits_list]> (<["merges" := merges_list]> ∅)) ∧
    (list_to_set (boundaries [5; 5]) ∖ list_to_set splits_list)
      ∪ list_to_set merges_list
      = (list_to_set (boundaries [3; 7]) : gset Z) ∧
    (list_to_set (boundaries [3; 7]) ∖ list_to_set merges_list)
      ∪ list_to_set splits_list
      = (list_to_set (boundaries [5; 5]) : gset Z).
Proof.
  apply (edition_turns_A_into_B Examples.scenario2_A Examples.scenario2_B
           "chr1" [5; 5] [3; 7]).
  - vm_compute. reflexivity.
  - vm_compute. reflexivity.
  - repeat constructor.
  - repeat constructor.
  - reflexivity.
Defined.

(** On segmentations of the same total length, no edition is reported
    exactly when the two segmentations are the same. *)
Theorem no_edition_iff_same_segmentation graph_A graph_B path_name
    lens_A lens_B :
  segmentation graph_A path_name = Some lens_A →
  segmentation graph_B path_name = Some lens_B →
  positive lens_A → positive lens_B →
  total_length lens_A = total_length lens_B →
  edit_single_path_path_level path_name graph_A graph_B
    = Ok (<["splits" := []]> (<["merges" := []]> ∅))
  ↔ lens_A = lens_B.
Proof.
  intros HsA HsB HA HB Htot.
  destruct (equal_totals_final _ _ _ _ _ HsA HsB HA HB Htot)
    as (st & _ & He & Hin & Hi & Hj).
  destruct Hin as (_ & _ & _ & _ & _ & _ & _ & Hs & Hm).
  rewrite Hi, firstn_all in Hs. rewrite Hj, firstn_all in Hm.
  rewrite He. split.
  - intros Hok.
    assert (edition_of st = <["splits" := []]> (<["merges" := []]> ∅))
      as Hed by congruence.
    assert (sorted_ints (splits st) = []) as Hs0.
    { pose proof (edition_of_splits st) as H. rewrite Hed in H.
      rewrite lookup_insert_eq in H. congruence. }
    assert (sorted_ints (merges st) = []) as Hm0.
    { pose proof (edition_of_merges st) as H. rewrite Hed in H.
      rewrite lookup_insert_ne, lookup_insert_eq in H by done. congruence. }
    apply sorted_ints_nil in Hs0, Hm0. rewrite Hs in Hs0. rewrite Hm in Hm0.
    apply (boundaries_from_inj _ _ 0).
    apply sorted_lt_ext; [by apply boundaries_from_sorted..|].
    intros z. fold (boundaries lens_A) (boundaries lens_B).
    assert (z ∉ own_boundaries lens_A lens_B) as HzA
      by (rewrite Hs0; apply not_elem_of_empty).
    assert (z ∉ own_boundaries lens_B lens_A) as HzB
      by (rewrite Hm0; apply not_elem_of_empty).
    unfold own_boundaries in HzA, HzB.
    rewrite elem_of_difference, !elem_of_list_to_set in HzA, HzB.
    destruct (decide (z ∈ boundaries lens_A));
      destruct (decide (z ∈ boundaries lens_B)); tauto.
  - intros <-. unfold edition_of.
    rewrite Hs, Hm, own_boundaries_same. by rewrite sorted_ints_empty.
Qed.

Lemma no_edition_iff_same_segmentation_witness :
  edit_single_path_path_level "chr1" Examples.scenario2_A Examples.scenario2_B
    = Ok (<["splits" := []]> (<["merges" := []]> ∅))
  ↔ [5; 5] = [3; 7].
Proof.
  apply (no_edition_iff_same_segmentation Examples.scenario2_A
           Examples.scenario2_B "chr1" [5; 5] [3; 7]).
  - vm_compute. reflexivity.
  - vm_compute. reflexivity.
  - repeat constructor.
  - repeat constructor.
  - reflexivity.
Defined.

End RoundTrip.
